(** * std::experimental::rational — a shallow embedding and its properties

    The header [include/std/experimental/rational.hpp] defines the class
    template [rational<type>] over an integral base type.  This file embeds
    the class in Rocq, member function by member function, and states the
    properties of the repository's specification over the embedding.

    The base type is a fixed-width integer.  Its values are integers of [Z]
    inside the range of the type; unsigned arithmetic wraps around modulo
    [2 ^ bits]; signed overflow, division by zero and the other cases the
    language leaves undefined are a separate, explicit outcome.  Member
    functions that mutate the object are computations over the two fields,
    which either return, throw [std::domain_error] (leaving the object in
    the state it had at the throw), or have undefined behaviour. *)

From Stdlib Require Import ZArith Znumtheory Lia Bool String SpecFloat.

Local Open Scope string_scope.
Local Open Scope Z_scope.

(** ** Integral base types *)

Module Integral.

(** A base type not subject to integral promotion ([int] and wider):
    its width and its signedness. *)
Record integral : Type := Build { bits : positive; is_signed : bool }.

Definition int_t : integral := Build 32 true.
Definition unsigned_int : integral := Build 32 false.
Definition long_long : integral := Build 64 true.
Definition unsigned_long_long : integral := Build 64 false.
(** [unsigned __int128], an integral type of the GNU dialects. *)
Definition unsigned_int128 : integral := Build 128 false.

Section Arithmetic.
Variable T : integral.

Definition modulus : Z := 2 ^ Zpos (bits T).

(** [std::numeric_limits<type>::min()] and [max()]. *)
Definition min_value : Z :=
  if is_signed T then - 2 ^ (Zpos (bits T) - 1) else 0.
Definition max_value : Z :=
  if is_signed T then 2 ^ (Zpos (bits T) - 1) - 1 else modulus - 1.

Definition representable (z : Z) : bool :=
  (min_value <=? z) && (z <=? max_value).

(** The value of an arithmetic expression whose mathematical result is
    [z]: reduced modulo [2 ^ bits] for an unsigned type, undefined
    ([None]) when a signed type cannot represent it. *)
Definition arith (z : Z) : option Z :=
  if is_signed T
  then if representable z then Some z else None
  else Some (z mod modulus).

Definition int_add (x y : Z) : option Z := arith (x + y).
Definition int_sub (x y : Z) : option Z := arith (x - y).
Definition int_mul (x y : Z) : option Z := arith (x * y).
Definition int_neg (x : Z) : option Z := arith (- x).

(** [x / y]: truncation towards zero; undefined for a zero divisor and
    when the quotient is not representable. *)
Definition int_div (x y : Z) : option Z :=
  if y =? 0 then None else arith (Z.quot x y).

(** [std::gcd(m, n)]: the greatest common divisor of [|m|] and [|n|],
    undefined when [|m|] or [|n|] is not representable. *)
Definition std_gcd (m n : Z) : option Z :=
  if representable (Z.abs m) && representable (Z.abs n)
  then Some (Z.gcd m n) else None.

End Arithmetic.

End Integral.

Import Integral.

(** ** The object and its member functions *)

(** The two data members of [rational<type>]. *)
Record rational : Type := Rational { numerator_ : Z; denominator_ : Z }.

Definition rational_eqb (a b : rational) : bool :=
  (numerator_ a =? numerator_ b) && (denominator_ a =? denominator_ b).

(** How a call of a member function on an object ends, with the state of
    the object at that point. *)
Inductive completion (A : Type) : Type :=
| Returns (a : A) (s : rational)
| Throws (what : string) (s : rational)
| Undefined.

Arguments Returns {A} a s.
Arguments Throws {A} what s.
Arguments Undefined {A}.

(** A member function: a computation over the object [*this]. *)
Definition method (A : Type) : Type := rational -> completion A.

Definition ret {A} (a : A) : method A := fun s => Returns a s.

Definition bind {A B} (m : method A) (k : A -> method B) : method B :=
  fun s =>
    match m s with
    | Returns a s' => k a s'
    | Throws what s' => Throws what s'
    | Undefined => Undefined
    end.

Definition throw {A} (what : string) : method A := fun s => Throws what s.

(** The value of an expression of the base type. *)
Definition eval {A} (e : option A) : method A :=
  fun s => match e with Some a => Returns a s | None => Undefined end.

Definition read (field : rational -> Z) : method Z :=
  fun s => Returns (field s) s.

Definition write_numerator (v : Z) : method unit :=
  fun s => Returns tt (Rational v (denominator_ s)).

Definition write_denominator (v : Z) : method unit :=
  fun s => Returns tt (Rational (numerator_ s) v).

Declare Scope method_scope.
Delimit Scope method_scope with method.
Bind Scope method_scope with method.

Notation "x <- m ;; k" := (bind m (fun x => k))
  (at level 61, m at next level, right associativity) : method_scope.
Notation "m ;; k" := (bind m (fun _ => k))
  (at level 61, right associativity) : method_scope.

Local Open Scope method_scope.

(** The result of an expression that yields a rational by value: the
    object a constructor builds, or the copy an operator returns.  When a
    constructor throws there is no object. *)
Inductive outcome (A : Type) : Type :=
| Ok (a : A)
| DomainError (what : string)
| UB.

Arguments Ok {A} a.
Arguments DomainError {A} what.
Arguments UB {A}.

(** The state of the object after a void member function. *)
Definition complete (m : method unit) (s : rational) : outcome rational :=
  match m s with
  | Returns _ s' => Ok s'
  | Throws what _ => DomainError what
  | Undefined => UB
  end.

Definition outcome_bind {A B} (o : outcome A) (k : A -> outcome B) : outcome B :=
  match o with
  | Ok a => k a
  | DomainError what => DomainError what
  | UB => UB
  end.

Section Rational.
Variable T : integral.

(** [void canonize()] *)
Definition canonize : method unit :=
  n <- read numerator_ ;;
  d <- read denominator_ ;;
  gcd <- eval (std_gcd T n d) ;;
  n <- read numerator_ ;;
  q <- eval (int_div T n gcd) ;;
  write_numerator q ;;
  d <- read denominator_ ;;
  q <- eval (int_div T d gcd) ;;
  write_denominator q ;;
  d <- read denominator_ ;;
  if 0 >? d then
    n <- read numerator_ ;;
    m <- eval (int_neg T n) ;;
    write_numerator m ;;
    d <- read denominator_ ;;
    m <- eval (int_neg T d) ;;
    write_denominator m
  else ret tt.

(** [rational(const type& numerator = type(0), const type& denominator = type(1))]:
    the members are initialised from the arguments, then the body runs. *)
Definition rational_ctor (numerator denominator : Z) : outcome rational :=
  complete
    (if denominator =? 0
     then throw "Denominator can not be zero."
     else canonize)
    (Rational numerator denominator).

(** [rational& operator=(const type& that)] *)
Definition operator_assign_int (that : Z) : method unit :=
  write_numerator that ;;
  write_denominator 1.

(** [bool operator==(const rational& that) const = default] *)
Definition operator_eq (this that : rational) : bool := rational_eqb this that.

(** [bool operator==(const type& that) const] *)
Definition operator_eq_int (this : rational) (that : Z) : bool :=
  (numerator_ this =? that) && (denominator_ this =? 1).

(** [std::strong_ordering operator<=>(const rational& that) const] *)
Definition operator_spaceship (this that : rational) : option comparison :=
  if operator_eq this that then Some Eq
  else
    match int_mul T (numerator_ this) (denominator_ that),
          int_mul T (denominator_ this) (numerator_ that) with
    | Some l, Some r => Some (l ?= r)
    | _, _ => None
    end.

(** [std::strong_ordering operator<=>(const type& that) const] *)
Definition operator_spaceship_int (this : rational) (that : Z) : option comparison :=
  if operator_eq_int this that then Some Eq
  else
    match int_mul T (denominator_ this) that with
    | Some r => Some (numerator_ this ?= r)
    | None => None
    end.

(** The relational operators the language derives from [<=>] and [==]. *)
Definition operator_lt (a b : rational) : Prop := operator_spaceship a b = Some Lt.
Definition operator_gt (a b : rational) : Prop := operator_spaceship a b = Some Gt.

(** [rational operator+() const] *)
Definition operator_plus (this : rational) : outcome rational := Ok this.

(** [rational operator-() const] *)
Definition operator_minus (this : rational) : outcome rational :=
  match int_neg T (numerator_ this) with
  | Some n => rational_ctor n (denominator_ this)
  | None => UB
  end.

(** [rational operator~() const] *)
Definition operator_tilde (this : rational) : outcome rational :=
  rational_ctor (denominator_ this) (numerator_ this).

(** [rational& operator+=(const rational& that)] *)
Definition operator_plus_eq (that : rational) : method unit :=
  n <- read numerator_ ;;
  l <- eval (int_mul T n (denominator_ that)) ;;
  d <- read denominator_ ;;
  r <- eval (int_mul T d (numerator_ that)) ;;
  v <- eval (int_add T l r) ;;
  write_numerator v ;;
  d <- read denominator_ ;;
  v <- eval (int_mul T d (denominator_ that)) ;;
  write_denominator v ;;
  canonize.

(** [rational& operator-=(const rational& that)] *)
Definition operator_minus_eq (that : rational) : method unit :=
  n <- read numerator_ ;;
  l <- eval (int_mul T n (denominator_ that)) ;;
  d <- read denominator_ ;;
  r <- eval (int_mul T d (numerator_ that)) ;;
  v <- eval (int_sub T l r) ;;
  write_numerator v ;;
  d <- read denominator_ ;;
  v <- eval (int_mul T d (denominator_ that)) ;;
  write_denominator v ;;
  canonize.

(** [rational& operator*=(const rational& that)] *)
Definition operator_times_eq (that : rational) : method unit :=
  n <- read numerator_ ;;
  v <- eval (int_mul T n (numerator_ that)) ;;
  write_numerator v ;;
  d <- read denominator_ ;;
  v <- eval (int_mul T d (denominator_ that)) ;;
  write_denominator v ;;
  canonize.

(** [rational& operator/=(const rational& that)], for [that] an object
    other than [*this]. *)
Definition operator_div_eq (that : rational) : method unit :=
  if numerator_ that =? 0 then throw "Division by zero."
  else
    n <- read numerator_ ;;
    v <- eval (int_mul T n (denominator_ that)) ;;
    write_numerator v ;;
    d <- read denominator_ ;;
    v <- eval (int_mul T d (numerator_ that)) ;;
    write_denominator v ;;
    canonize.

(** [a /= a]: when [that] is the object itself, the second statement
    of [operator/=] reads the numerator that the first one has already
    overwritten.  It is the one compound operator for which the
    aliasing matters; everywhere else [that] stands for any object. *)
Definition operator_div_eq_self : method unit :=
  c <- read numerator_ ;;
  if c =? 0 then throw "Division by zero."
  else
    n <- read numerator_ ;;
    d <- read denominator_ ;;
    v <- eval (int_mul T n d) ;;
    write_numerator v ;;
    d <- read denominator_ ;;
    c <- read numerator_ ;;
    v <- eval (int_mul T d c) ;;
    write_denominator v ;;
    canonize.

(** [rational& operator+=(const type& that)] *)
Definition operator_plus_eq_int (that : Z) : method unit :=
  d <- read denominator_ ;;
  p <- eval (int_mul T that d) ;;
  n <- read numerator_ ;;
  v <- eval (int_add T n p) ;;
  write_numerator v.

(** [rational& operator-=(const type& that)] *)
Definition operator_minus_eq_int (that : Z) : method unit :=
  d <- read denominator_ ;;
  p <- eval (int_mul T that d) ;;
  n <- read numerator_ ;;
  v <- eval (int_sub T n p) ;;
  write_numerator v.

(** [rational& operator*=(const type& that)] *)
Definition operator_times_eq_int (that : Z) : method unit :=
  n <- read numerator_ ;;
  v <- eval (int_mul T n that) ;;
  write_numerator v ;;
  canonize.

(** [rational& operator/=(const type& that)] *)
Definition operator_div_eq_int (that : Z) : method unit :=
  if that =? 0 then throw "Division by zero."
  else
    d <- read denominator_ ;;
    v <- eval (int_mul T d that) ;;
    write_denominator v ;;
    canonize.

(** [rational& operator++()] *)
Definition operator_pre_inc : method unit :=
  n <- read numerator_ ;;
  d <- read denominator_ ;;
  v <- eval (int_add T n d) ;;
  write_numerator v.

(** [rational& operator--()] *)
Definition operator_pre_dec : method unit :=
  n <- read numerator_ ;;
  d <- read denominator_ ;;
  v <- eval (int_sub T n d) ;;
  write_numerator v.

(** [rational operator++(int)]: returns the copy taken before the
    increment. *)
Definition operator_post_inc : method rational :=
  result <- (fun s => Returns s s) ;;
  operator_pre_inc ;;
  ret result.

(** [rational operator--(int)] *)
Definition operator_post_dec : method rational :=
  result <- (fun s => Returns s s) ;;
  operator_pre_dec ;;
  ret result.

(** [type numerator() const] and [type denominator() const] *)
Definition numerator (this : rational) : Z := numerator_ this.
Definition denominator (this : rational) : Z := denominator_ this.

(** [void numerator(const type& value)] *)
Definition numerator_set (value : Z) : method unit :=
  write_numerator value ;;
  canonize.

(** [void denominator(const type& value)] *)
Definition denominator_set (value : Z) : method unit :=
  if value =? 0 then throw "Denominator can not be zero."
  else
    write_denominator value ;;
    canonize.

(** [void assign(const type& numerator, const type& denominator)] *)
Definition assign (numerator denominator : Z) : method unit :=
  if denominator =? 0 then throw "Denominator can not be zero."
  else
    write_numerator numerator ;;
    write_denominator denominator ;;
    canonize.

End Rational.

(** ** Free arithmetic operators

    Each copies one operand and delegates to the compound form. *)

Section FreeOperators.
Variable T : integral.

(** [operator+(const rational<type>& lhs, const type& rhs)] *)
Definition operator_add_ri (lhs : rational) (rhs : Z) : outcome rational :=
  complete (operator_plus_eq_int T rhs) lhs.

(** [operator+(const type& lhs, const rational<type>& rhs)] *)
Definition operator_add_ir (lhs : Z) (rhs : rational) : outcome rational :=
  complete (operator_plus_eq_int T lhs) rhs.

(** [operator-(const rational<type>& lhs, const type& rhs)] *)
Definition operator_sub_ri (lhs : rational) (rhs : Z) : outcome rational :=
  complete (operator_minus_eq_int T rhs) lhs.

(** [operator-(const type& lhs, const rational<type>& rhs)] *)
Definition operator_sub_ir (lhs : Z) (rhs : rational) : outcome rational :=
  outcome_bind (complete (operator_minus_eq_int T lhs) rhs) (operator_minus T).

(** [operator*(const rational<type>& lhs, const type& rhs)] *)
Definition operator_mul_ri (lhs : rational) (rhs : Z) : outcome rational :=
  complete (operator_times_eq_int T rhs) lhs.

(** [operator*(const type& lhs, const rational<type>& rhs)] *)
Definition operator_mul_ir (lhs : Z) (rhs : rational) : outcome rational :=
  complete (operator_times_eq_int T lhs) rhs.

(** [operator/(const rational<type>& lhs, const type& rhs)] *)
Definition operator_div_ri (lhs : rational) (rhs : Z) : outcome rational :=
  complete (operator_div_eq_int T rhs) lhs.

(** [operator/(const type& lhs, const rational<type>& rhs)] *)
Definition operator_div_ir (lhs : Z) (rhs : rational) : outcome rational :=
  outcome_bind (rational_ctor T lhs 1) (complete (operator_div_eq T rhs)).

End FreeOperators.

(** ** Floating-point source types *)

Module Floating.

(** A binary floating-point type, by [std::numeric_limits<that_type>::digits]
    and [max_exponent].  Its values are those of [spec_float] that are
    valid for this precision and exponent range. *)
Record floating_point : Type := Build { digits : Z; max_exponent : Z }.

Definition float_t : floating_point := Build 24 128.
Definition double_t : floating_point := Build 53 1024.

(** [std::isfinite] *)
Definition isfinite (value : spec_float) : bool :=
  match value with
  | S754_zero _ | S754_finite _ _ _ => true
  | S754_infinity _ | S754_nan => false
  end.

(** [std::exp2] of an [int]: the argument is converted to [double] and
    the result is the [double] nearest to the power of two (infinite
    once the power exceeds the range). *)
Definition std_exp2 (x : Z) : spec_float :=
  binary_normalize (digits double_t) (max_exponent double_t) 1 x false.

Section Format.
Variable F : floating_point.

(** [std::frexp]: a fraction of magnitude in [[1/2, 1)] and a binary
    exponent; a zero is returned as it is, with exponent zero. *)
Definition std_frexp (value : spec_float) : spec_float * Z :=
  match value with
  | S754_finite _ _ _ => SFfrexp (digits F) (max_exponent F) value
  | _ => (value, 0)
  end.

(** The product and the quotient of two values of the type. *)
Definition float_mul (x y : spec_float) : spec_float :=
  SFmul (digits F) (max_exponent F) x y.
Definition float_div (x y : spec_float) : spec_float :=
  SFdiv (digits F) (max_exponent F) x y.

(** [static_cast<that_type>] of a floating-point value: rounding to
    the nearest value of the type. *)
Definition float_cast (x : spec_float) : spec_float :=
  match x with
  | S754_finite s m e => binary_round (digits F) (max_exponent F) s m e
  | _ => x
  end.

(** [static_cast<that_type>] of an integer: rounding to the nearest
    value of the type. *)
Definition of_integral (z : Z) : spec_float :=
  binary_normalize (digits F) (max_exponent F) z 0 false.

End Format.

(** [static_cast<type>] of a floating-point value: the fractional part
    is discarded; undefined when the truncated value is not
    representable, and for infinities and NaN. *)
Definition to_integral (T : integral) (x : spec_float) : option Z :=
  match x with
  | S754_zero _ => Some 0
  | S754_finite s m e =>
      let z := cond_Zopp s (Z.shiftl (Zpos m) e) in
      if representable T z then Some z else None
  | S754_infinity _ | S754_nan => None
  end.

End Floating.

Import Floating.

Section FromFloatingPoint.
Variable T : integral.
Variable F : floating_point.

(** [template <floating_point that_type> void assign(const that_type& value)].
    The local [exponent] is an [int] whose values stay within a few
    multiples of the exponent range of the floating-point type. *)
Definition assign_float (value : spec_float) : method unit :=
  let mantissa := digits F in
  let maximum_exponent := max_exponent F in
  if negb (isfinite value) then throw "Value can not be infinite."
  else
    let '(fraction, exponent) := std_frexp F value in
    v <- eval (to_integral T
                 (float_mul F fraction (float_cast F (std_exp2 mantissa)))) ;;
    write_numerator v ;;
    write_denominator 1 ;;
    let exponent := exponent - mantissa in
    if exponent >? 0 then
      p <- eval (to_integral T (std_exp2 exponent)) ;;
      n <- read numerator_ ;;
      v <- eval (int_mul T n p) ;;
      write_numerator v ;;
      n <- read numerator_ ;;
      d <- read denominator_ ;;
      assign T n d
    else if exponent <? 0 then
      let exponent := - exponent in
      if exponent >=? maximum_exponent - 1 then
        p <- eval (to_integral T (std_exp2 (exponent - (maximum_exponent - 1)))) ;;
        n <- read numerator_ ;;
        v <- eval (int_div T n p) ;;
        write_numerator v ;;
        p <- eval (to_integral T (std_exp2 (maximum_exponent - 1))) ;;
        d <- read denominator_ ;;
        v <- eval (int_mul T d p) ;;
        write_denominator v ;;
        n <- read numerator_ ;;
        if n =? 0
        then throw "Value evaluates to zero due to being too small."
        else
          n <- read numerator_ ;;
          d <- read denominator_ ;;
          assign T n d
      else
        p <- eval (to_integral T (std_exp2 exponent)) ;;
        d <- read denominator_ ;;
        v <- eval (int_mul T d p) ;;
        write_denominator v ;;
        n <- read numerator_ ;;
        d <- read denominator_ ;;
        assign T n d
    else
      n <- read numerator_ ;;
      d <- read denominator_ ;;
      assign T n d.

(** [template <floating_point that_type> rational(const that_type& that)]:
    the members are not initialised, and [assign] writes both before it
    reads either, so the state the body starts from is of no account. *)
Definition rational_ctor_float (that : spec_float) : outcome rational :=
  complete (assign_float that) (Rational 0 0).

(** [evaluate<result_type>()] for a floating-point result type. *)
Definition evaluate (this : rational) : spec_float :=
  float_div F (of_integral F (numerator_ this)) (of_integral F (denominator_ this)).

End FromFloatingPoint.

(** ** [pow] *)

Module Power.

(** The integer a floating-point value denotes once its fractional part
    is discarded. *)
Definition truncate (x : spec_float) : option Z :=
  match x with
  | S754_zero _ => Some 0
  | S754_finite s m e => Some (cond_Zopp s (Z.shiftl (Zpos m) e))
  | S754_infinity _ | S754_nan => None
  end.

Definition one : spec_float :=
  binary_normalize (digits double_t) (max_exponent double_t) 1 0 false.

(** [std::pow(double, double)] for a power that is a whole number, which
    is all that [pow] below passes.  The function belongs to the C
    library and not to the repository; it is taken at its best, as the
    [double] nearest to the exact power. *)
Definition pow_double (x y : spec_float) : spec_float :=
  match truncate y with
  | None => S754_nan
  | Some p =>
      if p =? 0 then one
      else
        match x with
        | S754_nan => S754_nan
        | S754_zero s =>
            if p >? 0 then S754_zero (s && Z.odd p)
            else S754_infinity (s && Z.odd p)
        | S754_infinity s =>
            if p >? 0 then S754_infinity (s && Z.odd p)
            else S754_zero (s && Z.odd p)
        | S754_finite s m e =>
            let sign := s && Z.odd p in
            let q := Z.to_pos (Z.abs p) in
            if p >? 0
            then binary_round (digits double_t) (max_exponent double_t)
                   sign (Pos.pow m q) (e * Zpos q)
            else float_div double_t one
                   (S754_finite sign (Pos.pow m q) (e * Zpos q))
        end
  end.

(** [std::pow] of two arguments of the integral type: both are
    converted to [double]. *)
Definition std_pow (base power : Z) : spec_float :=
  pow_double (of_integral double_t base) (of_integral double_t power).

End Power.

Import Power.

Section Pow.
Variable T : integral.

(** [rational<type> pow(const rational<type>& value, const type& power)]:
    the two [double] results are converted to the base type on their
    way into the two-argument constructor. *)
Definition pow (value : rational) (power : Z) : outcome rational :=
  match to_integral T (std_pow (numerator value) power),
        to_integral T (std_pow (denominator value) power) with
  | Some n, Some d => rational_ctor T n d
  | _, _ => UB
  end.

End Pow.

(** ** The vocabulary of the specification *)

(** Canonical form: the denominator is positive and the numerator and
    denominator have no common factor (so zero is [0/1]). *)
Definition canonicalb (r : rational) : bool :=
  (0 <? denominator_ r) && (Z.gcd (Z.abs (numerator_ r)) (denominator_ r) =? 1).

Definition canonical (r : rational) : Prop := canonicalb r = true.

(** Both fields are values of the base type. *)
Definition well_typed (T : integral) (r : rational) : Prop :=
  representable T (numerator_ r) = true /\ representable T (denominator_ r) = true.

(** The canonize step in the words of the specification, over the
    integers: divide both fields by their greatest common divisor, then
    move the sign to the numerator. *)
Definition reduce (n d : Z) : rational :=
  let g := Z.gcd n d in
  if d / g <? 0 then Rational (- (n / g)) (- (d / g)) else Rational (n / g) (d / g).

(** The public operations that change an object in place. *)
Inductive mutation : Type :=
| Assign_int (that : Z)
| Copy_assign (that : rational)
| Plus_eq (that : rational)
| Minus_eq (that : rational)
| Times_eq (that : rational)
| Div_eq (that : rational)
| Plus_eq_int (that : Z)
| Minus_eq_int (that : Z)
| Times_eq_int (that : Z)
| Div_eq_int (that : Z)
| Pre_inc
| Pre_dec
| Post_inc
| Post_dec
| Set_numerator (value : Z)
| Set_denominator (value : Z)
| Assign (n d : Z)
| Assign_float (F : floating_point) (value : spec_float).

Definition apply (T : integral) (op : mutation) : method unit :=
  match op with
  | Assign_int that => operator_assign_int that
  | Copy_assign that => fun _ => Returns tt that
  | Plus_eq that => operator_plus_eq T that
  | Minus_eq that => operator_minus_eq T that
  | Times_eq that => operator_times_eq T that
  | Div_eq that => operator_div_eq T that
  | Plus_eq_int that => operator_plus_eq_int T that
  | Minus_eq_int that => operator_minus_eq_int T that
  | Times_eq_int that => operator_times_eq_int T that
  | Div_eq_int that => operator_div_eq_int T that
  | Pre_inc => operator_pre_inc T
  | Pre_dec => operator_pre_dec T
  | Post_inc => operator_post_inc T ;; ret tt
  | Post_dec => operator_post_dec T ;; ret tt
  | Set_numerator value => numerator_set T value
  | Set_denominator value => denominator_set T value
  | Assign n d => assign T n d
  | Assign_float F value => assign_float T F value
  end.




(** The magnitude of [z] is representable: [z] is no overflow for the
    arithmetic, the negation and [std::gcd]. *)
Definition fits (T : integral) (z : Z) : Prop :=
  representable T z = true /\ representable T (Z.abs z) = true.

(** The cross products of a comparison do not exceed the range of the
    base type. *)
Definition comparable (T : integral) (a b : rational) : Prop :=
  representable T (numerator_ a * denominator_ b) = true /\
  representable T (denominator_ a * numerator_ b) = true.

(** Exactly one of three propositions holds. *)
Definition exactly_one (P Q R : Prop) : Prop :=
  (P /\ ~ Q /\ ~ R) \/ (~ P /\ Q /\ ~ R) \/ (~ P /\ ~ Q /\ R).

(** Two integers denote the same value of the base type: they agree
    modulo [2 ^ bits]. *)
Definition congruent (T : integral) (x y : Z) : Prop :=
  (x - y) mod modulus T = 0.

(** The mantissa of full width that represents a positive integer below
    [2 ^ prec] in a floating-point type of precision [prec]. *)
Definition widen (prec : Z) (v : positive) : positive :=
  Z.to_pos (Zpos v * 2 ^ (prec - Zpos (digits2_pos v))).

(** The power [2 ^ n] as a mantissa. *)
Definition power_of_two (n : Z) : positive := Z.to_pos (2 ^ n).

(** A floating-point type no wider than [double] whose exponent range
    exceeds its precision, as those of [float] and [double] do. *)
Definition format_ok (F : floating_point) : Prop :=
  1 < digits F <= 53 /\ digits F + 1 < max_exponent F <= 1024.

(** A floating-point value that the conversion scales exactly: positive
    zero, or a value whose mantissa has an exponent [e] above
    [1 - max_exponent] (so that the scaling is not split), when the
    integers of the conversion are within the range of the base type, in
    magnitude too: the signed mantissa times [2 ^ e] for [e >= 0], the
    signed mantissa and the power [2 ^ - e] for [e < 0], and [2 ^ digits]
    for zero. *)
Definition directly_scaled (T : integral) (F : floating_point) (value : spec_float) : Prop :=
  match value with
  | S754_zero s => s = false /\ representable T (2 ^ digits F) = true
  | S754_finite s m e =>
      1 - max_exponent F < e /\
      if 0 <=? e
      then fits T (cond_Zopp s (Zpos m) * 2 ^ e)
      else fits T (cond_Zopp s (Zpos m)) /\ representable T (2 ^ (- e)) = true
  | S754_infinity _ | S754_nan => False
  end.

(** ** The remaining functions of the header *)

Section Conversions.
Variable T : integral.

(** [static_cast<type>] of an integer of another integral type: the
    value of the destination type that agrees with the source modulo
    [2 ^ bits]. *)
Definition integral_cast (z : Z) : Z :=
  if is_signed T
  then (z + 2 ^ (Zpos (bits T) - 1)) mod modulus T - 2 ^ (Zpos (bits T) - 1)
  else z mod modulus T.

(** [evaluate<result_type>()] for an integral result type, here [T]:
    both fields are converted to it and divided in it. *)
Definition evaluate_integral (this : rational) : option Z :=
  int_div T (integral_cast (numerator_ this)) (integral_cast (denominator_ this)).

(** [rational_cast<arithmetic_type>(const rational<integral_type>&)] for
    an integral [arithmetic_type]. *)
Definition rational_cast_to_integral (value : rational) : option Z :=
  evaluate_integral value.

(** [rational_cast<integral_type>(const arithmetic_type&)] for an
    integral [arithmetic_type]: the value is converted to the base type
    and given to the constructor, whose denominator defaults to one. *)
Definition rational_cast_from_integral (value : Z) : outcome rational :=
  rational_ctor T (integral_cast value) 1.

(** The uniform accessors [numerator(x)] and [denominator(x)], on a
    rational and on a bare arithmetic value. *)
Definition numerator_of_rational (value : rational) : Z := numerator value.
Definition denominator_of_rational (value : rational) : Z := denominator value.
Definition numerator_of_arithmetic (value : Z) : Z := value.
Definition denominator_of_arithmetic (value : Z) : Z := 1.

(** [std::abs] on the base type, which is signed: undefined when the
    magnitude is not representable. *)
Definition std_abs (x : Z) : option Z :=
  if representable T (Z.abs x) then Some (Z.abs x) else None.

(** [rational<type> abs(const rational<type>& value)] *)
Definition abs (value : rational) : outcome rational :=
  match std_abs (numerator value) with
  | Some n => rational_ctor T n (denominator value)
  | None => UB
  end.

(** The literal operators [r], [lr], [llr], [ur], [ulr] and [ullr]: the
    [unsigned long long] the literal denotes is converted to the base
    type and given to the constructor. *)
Definition operator_literal (value : Z) : outcome rational :=
  rational_ctor T (integral_cast value) 1.

End Conversions.

(** [rational_cast<arithmetic_type>] to a floating-point type and
    [rational_cast<integral_type>] from one. *)
Definition rational_cast_to_floating (F : floating_point) (value : rational) : spec_float :=
  evaluate F value.
Definition rational_cast_from_floating (T : integral) (F : floating_point)
    (value : spec_float) : outcome rational :=
  rational_ctor_float T F value.

(** * Facts about the arithmetic of the base type *)

Section ArithmeticFacts.
Variable T : integral.

Lemma modulus_pos : 0 < modulus T.
Proof. unfold modulus. apply Z.pow_pos_nonneg; lia. Qed.

Lemma representable_iff z :
  representable T z = true <-> min_value T <= z <= max_value T.
Proof. unfold representable. rewrite andb_true_iff, !Z.leb_le. tauto. Qed.

Lemma min_value_nonpos : min_value T <= 0.
Proof.
  unfold min_value. destruct (is_signed T); [|lia].
  assert (0 < 2 ^ (Z.pos (bits T) - 1)) by (apply Z.pow_pos_nonneg; lia). lia.
Qed.

Lemma max_value_nonneg : 0 <= max_value T.
Proof.
  unfold max_value. destruct (is_signed T).
  - assert (0 < 2 ^ (Z.pos (bits T) - 1)) by (apply Z.pow_pos_nonneg; lia). lia.
  - pose proof modulus_pos. lia.
Qed.

Lemma unsigned_range z :
  is_signed T = false -> (representable T z = true <-> 0 <= z < modulus T).
Proof.
  intros U. rewrite representable_iff. unfold min_value, max_value.
  rewrite U. lia.
Qed.

Lemma representable_0 : representable T 0 = true.
Proof.
  apply representable_iff. pose proof min_value_nonpos.
  pose proof max_value_nonneg. lia.
Qed.

(** A value between zero and a representable value is representable. *)
Lemma representable_between z w :
  representable T z = true -> Z.abs w <= Z.abs z -> z * w >= 0 ->
  representable T w = true.
Proof.
  rewrite !representable_iff. pose proof min_value_nonpos.
  pose proof max_value_nonneg. nia.
Qed.

Lemma arith_exact z : representable T z = true -> arith T z = Some z.
Proof.
  intros R. unfold arith. destruct (is_signed T) eqn:S.
  - now rewrite R.
  - f_equal. apply Z.mod_small. now apply unsigned_range.
Qed.

Lemma arith_representable z v : arith T z = Some v -> representable T v = true.
Proof.
  unfold arith. destruct (is_signed T) eqn:S.
  - destruct (representable T z) eqn:R; intros [= <-]; exact R.
  - intros [= <-]. apply unsigned_range; trivial.
    apply Z.mod_pos_bound, modulus_pos.
Qed.

Lemma arith_congruent z v : arith T z = Some v -> (v - z) mod modulus T = 0.
Proof.
  unfold arith. destruct (is_signed T).
  - destruct (representable T z); intros [= <-].
    rewrite Z.sub_diag. apply Z.mod_0_l. pose proof modulus_pos; lia.
  - intros [= <-]. pose proof modulus_pos.
    rewrite Zminus_mod, Z.mod_mod, Z.sub_diag by lia. apply Z.mod_0_l; lia.
Qed.

Lemma arith_signed z v :
  is_signed T = true -> arith T z = Some v -> v = z /\ representable T z = true.
Proof.
  intros S. unfold arith. rewrite S.
  destruct (representable T z); [intros [= <-]; auto | discriminate].
Qed.


Lemma arith_inv z v :
  arith T z = Some v -> representable T z = true -> v = z.
Proof.
  intros A R. rewrite (arith_exact _ R) in A. congruence.
Qed.

End ArithmeticFacts.

Lemma canonical_iff r :
  canonical r <-> 0 < denominator_ r /\ Z.gcd (numerator_ r) (denominator_ r) = 1.
Proof.
  unfold canonical, canonicalb.
  rewrite andb_true_iff, Z.ltb_lt, Z.eqb_eq, Z.gcd_abs_l. tauto.
Qed.

Section ReduceFacts.
Variables n d : Z.
Hypothesis nonzero : n <> 0 \/ d <> 0.

Lemma gcd_positive : 0 < Z.gcd n d.
Proof.
  pose proof (Z.gcd_nonneg n d).
  destruct (Z.eq_dec (Z.gcd n d) 0) as [E|]; [|lia].
  apply Z.gcd_eq_0 in E. lia.
Qed.

Lemma gcd_cofactors :
  exists k1 k2, n = Z.gcd n d * k1 /\ d = Z.gcd n d * k2 /\ Z.gcd k1 k2 = 1.
Proof.
  pose proof gcd_positive as G.
  destruct (Z.gcd_divide_l n d) as [k1 E1].
  destruct (Z.gcd_divide_r n d) as [k2 E2].
  remember (Z.gcd n d) as g eqn:Eg.
  exists k1, k2. repeat split; try lia.
  assert (E : Z.gcd (g * k1) (g * k2) = g).
  { replace (g * k1) with n by lia. replace (g * k2) with d by lia.
    now symmetry. }
  rewrite Z.gcd_mul_mono_l_nonneg in E by lia.
  assert (g * Z.gcd k1 k2 = g * 1) by lia.
  apply Z.mul_reg_l in H; lia.
Qed.

Lemma reduce_cofactors k1 k2 :
  n = Z.gcd n d * k1 -> d = Z.gcd n d * k2 ->
  reduce n d = if k2 <? 0 then Rational (- k1) (- k2) else Rational k1 k2.
Proof.
  intros E1 E2. pose proof gcd_positive as G. unfold reduce.
  remember (Z.gcd n d) as g eqn:Eg.
  assert (Q1 : n / g = k1) by (rewrite E1, Z.mul_comm; apply Z.div_mul; lia).
  assert (Q2 : d / g = k2) by (rewrite E2, Z.mul_comm; apply Z.div_mul; lia).
  now rewrite Q1, Q2.
Qed.

End ReduceFacts.

Lemma reduce_value n d :
  d <> 0 ->
  numerator_ (reduce n d) * d = n * denominator_ (reduce n d).
Proof.
  intros D.
  destruct (gcd_cofactors n d (or_intror D)) as (k1 & k2 & E1 & E2 & _).
  rewrite (reduce_cofactors n d (or_intror D) k1 k2 E1 E2).
  destruct (k2 <? 0); simpl; nia.
Qed.

Lemma reduce_canonical n d : d <> 0 -> canonical (reduce n d).
Proof.
  intros D. apply canonical_iff.
  destruct (gcd_cofactors n d (or_intror D)) as (k1 & k2 & E1 & E2 & C).
  rewrite (reduce_cofactors n d (or_intror D) k1 k2 E1 E2).
  pose proof (gcd_positive n d (or_intror D)).
  destruct (k2 <? 0) eqn:S; simpl.
  - apply Z.ltb_lt in S. rewrite Z.gcd_opp_l, Z.gcd_opp_r. split; [lia | exact C].
  - apply Z.ltb_ge in S. split; [nia | exact C].
Qed.

(** A fraction has one canonical form. *)
Lemma canonical_unique a b :
  canonical a -> canonical b ->
  numerator_ a * denominator_ b = numerator_ b * denominator_ a ->
  a = b.
Proof.
  destruct a as [n d], b as [n' d']. rewrite !canonical_iff. simpl.
  intros [D C] [D' C'] E.
  assert (Dd : (d | d')).
  { apply Z.gauss with n; [exists n'; lia | now rewrite Z.gcd_comm]. }
  assert (Dd' : (d' | d)).
  { apply Z.gauss with n'; [exists n; lia | now rewrite Z.gcd_comm]. }
  assert (d = d') by (apply Z.divide_antisym_nonneg; trivial; lia).
  subst d'. f_equal. nia.
Qed.

Lemma reduce_unique n d r :
  d <> 0 -> canonical r -> numerator_ r * d = n * denominator_ r -> reduce n d = r.
Proof.
  intros D C E. apply canonical_unique; auto using reduce_canonical.
  pose proof (reduce_value n d D) as V.
  apply canonical_iff in C. destruct C as [P _].
  apply Z.mul_reg_r with d; [exact D|].
  transitivity (numerator_ (reduce n d) * d * denominator_ r); [ring|].
  rewrite V. transitivity (numerator_ r * d * denominator_ (reduce n d)); [|ring].
  rewrite E. ring.
Qed.

Lemma reduce_canonical_id r : canonical r -> reduce (numerator_ r) (denominator_ r) = r.
Proof.
  intros C. apply reduce_unique; auto.
  apply canonical_iff in C. lia.
Qed.

(** Unfolding the computations of member functions. *)
Tactic Notation "run" :=
  cbv [bind ret throw eval read write_numerator write_denominator complete];
  cbn [numerator_ denominator_].
Tactic Notation "run" "in" hyp(H) :=
  cbv [bind ret throw eval read write_numerator write_denominator complete] in H;
  cbn [numerator_ denominator_] in H.

(** Case analysis on the expressions a returning computation evaluated. *)
Ltac peel H :=
  repeat (cbv beta iota in H; cbn [numerator_ denominator_] in H;
          match type of H with
          | context [match ?e with Some _ => _ | None => _ end] =>
              let E := fresh "E" in destruct e eqn:E; [|discriminate H]
          end);
  cbv beta iota in H; cbn [numerator_ denominator_] in H.

Section CanonizeFacts.
Variable T : integral.

Lemma int_div_cofactor g k :
  g <> 0 -> representable T k = true -> int_div T (g * k) g = Some k.
Proof.
  intros G R. unfold int_div.
  destruct (Z.eqb_spec g 0) as [|_]; [contradiction|].
  rewrite Z.mul_comm, Z.quot_mul by exact G. now apply arith_exact.
Qed.

Lemma fits_cofactor g k : 0 < g -> fits T (g * k) -> fits T k.
Proof.
  intros G [R A]. split.
  - apply (representable_between T (g * k)); trivial; nia.
  - apply (representable_between T (Z.abs (g * k))); trivial; nia.
Qed.

Lemma fits_neg z : is_signed T = true -> fits T z -> representable T (- z) = true.
Proof.
  intros S [R A]. apply representable_iff.
  apply representable_iff in R, A. revert R A.
  unfold min_value, max_value. rewrite S. lia.
Qed.

Lemma well_typed_fits z :
  is_signed T = false -> representable T z = true -> fits T z.
Proof.
  intros U R. split; trivial.
  apply (unsigned_range T _ U) in R. rewrite Z.abs_eq by lia.
  now apply unsigned_range.
Qed.

(** On fields whose magnitudes are representable and which are not both
    zero, [canonize] returns, and it computes [reduce]. *)
Lemma canonize_reduce s :
  fits T (numerator_ s) -> fits T (denominator_ s) ->
  numerator_ s <> 0 \/ denominator_ s <> 0 ->
  canonize T s = Returns tt (reduce (numerator_ s) (denominator_ s)).
Proof.
  destruct s as [n d]. simpl. intros Fn Fd NZ.
  pose proof (gcd_positive n d NZ) as G.
  destruct (gcd_cofactors n d NZ) as (k1 & k2 & E1 & E2 & _).
  rewrite (reduce_cofactors n d NZ k1 k2 E1 E2).
  assert (F1 : fits T k1) by (apply (fits_cofactor (Z.gcd n d)); [|rewrite <- E1]; trivial).
  assert (F2 : fits T k2) by (apply (fits_cofactor (Z.gcd n d)); [|rewrite <- E2]; trivial).
  unfold canonize. run. unfold std_gcd.
  rewrite (proj2 Fn), (proj2 Fd). simpl.
  remember (Z.gcd n d) as g eqn:Eg.
  assert (Q1 : int_div T n g = Some k1)
    by (rewrite E1; apply int_div_cofactor; [lia | apply F1]).
  assert (Q2 : int_div T d g = Some k2)
    by (rewrite E2; apply int_div_cofactor; [lia | apply F2]).
  rewrite Q1. cbn [numerator_ denominator_]. rewrite Q2.
  cbn [numerator_ denominator_].
  rewrite Z.gtb_ltb. destruct (k2 <? 0) eqn:S; [|reflexivity].
  apply Z.ltb_lt in S.
  destruct (is_signed T) eqn:Sg.
  - unfold int_neg. rewrite !arith_exact by now apply fits_neg.
    reflexivity.
  - exfalso. destruct Fd as [Rd _]. apply (unsigned_range T _ Sg) in Rd. nia.
Qed.

(** Whenever [canonize] returns on an object of the base type, it has
    computed [reduce], and the fields were not both zero. *)
Lemma canonize_returns s s' :
  well_typed T s -> canonize T s = Returns tt s' ->
  (numerator_ s <> 0 \/ denominator_ s <> 0) /\
  s' = reduce (numerator_ s) (denominator_ s).
Proof.
  destruct s as [n d]. intros [Rn Rd] C. simpl in Rn, Rd |- *.
  assert (F : fits T n /\ fits T d /\ (n <> 0 \/ d <> 0)).
  { revert C. unfold canonize. run. unfold std_gcd.
    destruct (representable T (Z.abs n)) eqn:An; [|discriminate].
    destruct (representable T (Z.abs d)) eqn:Ad; [|discriminate].
    simpl. unfold int_div at 1.
    destruct (Z.eqb_spec (Z.gcd n d) 0) as [E|NE]; [discriminate|].
    intros _. repeat split; trivial.
    destruct (Z.eq_dec n 0), (Z.eq_dec d 0); subst; auto. }
  destruct F as (Fn & Fd & NZ). split; [exact NZ|].
  rewrite (canonize_reduce (Rational n d) Fn Fd NZ) in C. now inversion C.
Qed.


Lemma canonize_no_throw s what s' : canonize T s <> Throws what s'.
Proof.
  destruct s as [n d]. intros H. unfold canonize in H. run in H. peel H.
  match type of H with
  | context [if ?c then _ else _] => destruct c; [|discriminate]
  end.
  peel H. discriminate.
Qed.

End CanonizeFacts.

Section MutationFacts.
Variable T : integral.

Lemma gcd_add_mult n d c : Z.gcd (n + c * d) d = Z.gcd n d.
Proof.
  rewrite (Z.gcd_comm (n + c * d)), (Z.gcd_comm n).
  apply Z.gcd_add_mult_diag_r.
Qed.



Lemma canonical_shift n d c :
  canonical (Rational n d) -> canonical (Rational (n + c * d) d).
Proof.
  rewrite !canonical_iff. simpl. now rewrite gcd_add_mult.
Qed.



End MutationFacts.

Section FloatAssignFacts.
Variable T : integral.

Lemma to_integral_representable x z :
  to_integral T x = Some z -> representable T z = true.
Proof.
  destruct x as [s| | |s m e]; simpl; try discriminate.
  - intros [= <-]. apply representable_0.
  - destruct (representable T _) eqn:R; [intros [= <-]; exact R | discriminate].
Qed.



End FloatAssignFacts.

Section CanonicalForm.
Variable T : integral.




End CanonicalForm.

Section ErrorFacts.
Variable T : integral.

Lemma rational_ctor_reduce n d :
  fits T n -> fits T d -> d <> 0 -> rational_ctor T n d = Ok (reduce n d).
Proof.
  intros Fn Fd NZ. unfold rational_ctor, complete.
  destruct (Z.eqb_spec d 0) as [|_]; [contradiction|].
  now rewrite (canonize_reduce T (Rational n d)) by (simpl; auto).
Qed.

Lemma reduce_swap n d :
  0 < d -> Z.gcd n d = 1 -> n <> 0 ->
  reduce d n = if n <? 0 then Rational (- d) (- n) else Rational d n.
Proof.
  intros D C NZ. unfold reduce.
  rewrite Z.gcd_comm, C, !Z.div_1_r. reflexivity.
Qed.

(** Every operation but the assignment from floating point leaves the
    object as it was when it throws. *)
Lemma throw_leaves_state op s what s' :
  (forall F value, op <> Assign_float F value) ->
  apply T op s = Throws what s' -> s' = s.
Proof.
  intros NF H. destruct s as [a b].
  destruct op; simpl in H;
    try solve [ exfalso; eapply NF; reflexivity
              | discriminate H ];
    [ unfold operator_plus_eq in H
    | unfold operator_minus_eq in H
    | unfold operator_times_eq in H
    | unfold operator_div_eq in H
    | unfold operator_plus_eq_int in H
    | unfold operator_minus_eq_int in H
    | unfold operator_times_eq_int in H
    | unfold operator_div_eq_int in H
    | unfold operator_pre_inc in H
    | unfold operator_pre_dec in H
    | unfold operator_post_inc, operator_pre_inc in H
    | unfold operator_post_dec, operator_pre_dec in H
    | unfold numerator_set in H
    | unfold denominator_set in H
    | unfold assign in H ];
    try match type of H with
        | context [if ?c then throw _ else _] =>
            destruct c; [now inversion H|]
        end;
    run in H; peel H;
    solve [ discriminate H | exfalso; eapply canonize_no_throw; exact H ].
Qed.

End ErrorFacts.

Section FloatThrowFacts.
Variable T : integral.

Lemma assign_throw n d s what s' :
  assign T n d s = Throws what s' -> d = 0 /\ s' = s.
Proof.
  unfold assign. destruct (Z.eqb_spec d 0) as [E|NE].
  - intros H. inversion H. auto.
  - run. intros H. exfalso. eapply canonize_no_throw. exact H.
Qed.

Lemma not_canonical_zero_denominator n : ~ canonical (Rational n 0).
Proof. rewrite canonical_iff. simpl. lia. Qed.

Lemma not_canonical_zero_numerator d : d <> 1 -> ~ canonical (Rational 0 d).
Proof. rewrite canonical_iff. simpl. intros D [P G]. lia. Qed.

(** The largest power of two of the split, as the base type holds it. *)
Lemma split_power F p :
  F = float_t \/ F = double_t ->
  to_integral T (std_exp2 (max_exponent F - 1)) = Some p -> 1 < p.
Proof.
  intros [-> | ->]; simpl;
    match goal with
    | |- context [representable T ?z] => destruct (representable T z)
    end; intros [= <-]; lia.
Qed.

(** A domain error of the assignment from floating point that is not
    the rejection of an infinity or a NaN finds the object changed. *)
Lemma assign_float_throw_changes F value s what s' :
  F = float_t \/ F = double_t ->
  canonical s -> isfinite value = true ->
  assign_float T F value s = Throws what s' -> s' <> s.
Proof.
  intros HF C Fin. unfold assign_float. rewrite Fin. simpl.
  destruct (std_frexp F value) as [fraction exponent].
  run. intros H. peel H.
  assert (A0 : forall n d, assign T n d (Rational n d) = Throws what s' -> s' <> s).
  { intros n d A. apply assign_throw in A. destruct A as [-> ->].
    intros <-. revert C. apply not_canonical_zero_denominator. }
  destruct (exponent - digits F >? 0).
  - peel H. eapply A0; eauto.
  - destruct (exponent - digits F <? 0); [|eapply A0; eauto].
    destruct (- (exponent - digits F) >=? max_exponent F - 1).
    + peel H.
      match type of H with
      | context [if ?c then _ else _] => destruct c eqn:Zero
      end; [|eapply A0; eauto].
      inversion H; subst; clear H.
      apply Z.eqb_eq in Zero. subst.
      pose proof (split_power F _ HF E2) as P.
      assert (z3 = 1 * z2).
      { apply (arith_inv T _ _ E3). rewrite Z.mul_1_l.
        eapply to_integral_representable; eauto. }
      subst z3. intros <-. revert C. apply not_canonical_zero_numerator. lia.
    + peel H. eapply A0; eauto.
Qed.

End FloatThrowFacts.

(** * Facts about binary floating-point values *)

Lemma digits2_pos_log2 m : Zpos (digits2_pos m) = Z.log2 (Zpos m) + 1.
Proof.
  induction m as [p IH|p IH|]; cbn [digits2_pos]; rewrite ?Pos2Z.inj_succ, ?IH.
  - rewrite Pos2Z.inj_xI, Z.log2_succ_double by lia. lia.
  - rewrite Pos2Z.inj_xO, Z.log2_double by lia. lia.
  - reflexivity.
Qed.

Lemma digits2_pos_shift (c x : positive) k :
  0 <= k -> Zpos c = Zpos x * 2 ^ k ->
  Zpos (digits2_pos c) = Zpos (digits2_pos x) + k.
Proof.
  intros K E. rewrite !digits2_pos_log2, E, Z.log2_mul_pow2 by lia. lia.
Qed.

Lemma digits2_pos_bounds m :
  2 ^ (Zpos (digits2_pos m) - 1) <= Zpos m < 2 ^ Zpos (digits2_pos m).
Proof.
  rewrite digits2_pos_log2.
  replace (Z.log2 (Z.pos m) + 1 - 1) with (Z.log2 (Zpos m)) by lia.
  apply Z.log2_spec. lia.
Qed.

Lemma digits2_pos_unique m d :
  2 ^ (d - 1) <= Zpos m < 2 ^ d -> Zpos (digits2_pos m) = d.
Proof.
  intros B. rewrite digits2_pos_log2.
  assert (0 < d).
  { destruct (Z.lt_ge_cases 0 d) as [|N]; trivial.
    destruct B as [_ B]. destruct (Z.eq_dec d 0) as [->|]; [simpl in B; lia|].
    rewrite Z.pow_neg_r in B by lia. lia. }
  rewrite (Z.log2_unique (Zpos m) (d - 1)); try lia.
  replace (Z.succ (d - 1)) with d by lia. exact B.
Qed.

Lemma iter_xO_pow2 m d : Zpos (Pos.iter xO m d) = Zpos m * 2 ^ Zpos d.
Proof.
  induction d as [|d IH] using Pos.peano_ind.
  - simpl. lia.
  - rewrite Pos.iter_succ, Pos2Z.inj_xO, IH, Pos2Z.inj_succ, Z.pow_succ_r by lia. ring.
Qed.

Lemma shr_1_double x :
  shr_1 (Build_shr_record (x * 2) false false) = Build_shr_record x false false.
Proof.
  destruct x as [|p|p]; simpl; trivial.
  - now rewrite Pos.mul_comm.
  - now rewrite Pos.mul_comm.
Qed.

Lemma iter_pos_shr_1 p : forall x,
  iter_pos shr_1 p (Build_shr_record (x * 2 ^ Zpos p) false false)
  = Build_shr_record x false false.
Proof.
  induction p as [p IH|p IH|]; intros x; cbn [iter_pos].
  - replace (x * 2 ^ Zpos p~1) with ((x * 2 ^ Zpos p * 2 ^ Zpos p) * 2)
      by (replace (Zpos p~1) with (Zpos p + Zpos p + 1) by lia;
          rewrite !Z.pow_add_r, Z.pow_1_r by lia; ring).
    now rewrite shr_1_double, !IH.
  - replace (x * 2 ^ Zpos p~0) with (x * 2 ^ Zpos p * 2 ^ Zpos p)
      by (replace (Zpos p~0) with (Zpos p + Zpos p) by lia;
          rewrite Z.pow_add_r by lia; ring).
    now rewrite !IH.
  - apply shr_1_double.
Qed.

Lemma shr_exact x e k :
  0 <= k ->
  shr (Build_shr_record (x * 2 ^ k) false false) e k
  = (Build_shr_record x false false, e + k).
Proof.
  intros K. destruct k as [|p|p]; [| |lia].
  - simpl. now rewrite Z.mul_1_r, Z.add_0_r.
  - unfold shr. now rewrite iter_pos_shr_1.
Qed.

Lemma digits2_pos_below v p :
  Zpos v < 2 ^ p -> Zpos (digits2_pos v) <= p.
Proof.
  intros B. pose proof (digits2_pos_bounds v) as [L _].
  assert (0 <= p).
  { destruct (Z.lt_ge_cases p 0) as [N|]; trivial.
    rewrite Z.pow_neg_r in B by trivial. lia. }
  assert (X : 2 ^ (Zpos (digits2_pos v) - 1) < 2 ^ p) by lia.
  apply Z.pow_lt_mono_r_iff in X; lia.
Qed.

Section FormatFacts.
Variables prec emax : Z.

Lemma bounded_iff m e :
  bounded prec emax m e = true <->
  fexp prec emax (Zpos (digits2_pos m) + e) = e /\ e <= emax - prec.
Proof.
  unfold SpecFloat.bounded, canonical_mantissa.
  now rewrite andb_true_iff, Z.eqb_eq, Z.leb_le.
Qed.

(** Mantissas of full width are canonical above the least exponent. *)
Lemma bounded_normal m e :
  Zpos (digits2_pos m) = prec -> 3 - emax - prec <= e <= emax - prec ->
  bounded prec emax m e = true.
Proof.
  intros D E. apply bounded_iff. split; [|lia].
  unfold SpecFloat.fexp, emin. lia.
Qed.

Lemma shr_fexp_exact (c x : positive) e k :
  0 <= k -> Zpos c = Zpos x * 2 ^ k ->
  fexp prec emax (Zpos (digits2_pos x) + (e + k)) = e + k ->
  shr_fexp prec emax (Zpos c) e loc_Exact
  = (Build_shr_record (Zpos x) false false, e + k).
Proof.
  intros K E F. unfold shr_fexp. cbn [Zdigits2 shr_record_of_loc].
  rewrite (digits2_pos_shift c x k K E).
  replace (Zpos (digits2_pos x) + k + e) with (Zpos (digits2_pos x) + (e + k)) by lia.
  rewrite F. replace (e + k - e) with k by lia.
  rewrite E. now apply shr_exact.
Qed.

(** Rounding a mantissa whose discarded bits are all zero. *)
Lemma binary_round_aux_exact s (c x : positive) e k :
  0 <= k -> Zpos c = Zpos x * 2 ^ k -> bounded prec emax x (e + k) = true ->
  binary_round_aux prec emax s (Zpos c) e loc_Exact = S754_finite s x (e + k).
Proof.
  intros K E B. apply bounded_iff in B. destruct B as [F L].
  unfold binary_round_aux.
  rewrite (shr_fexp_exact c x e k K E F).
  cbn [shr_m loc_of_shr_record round_nearest_even].
  rewrite (shr_fexp_exact x x (e + k) 0); try lia.
  - cbn [shr_m]. rewrite Z.add_0_r.
    apply Z.leb_le in L. now rewrite L.
  - now rewrite Z.add_0_r.
Qed.

(** [binary_round] yields the canonical representation [(c, ec)] of the
    value of [(M, E)] whenever it has one. *)
Lemma binary_round_canonical s (M : positive) E (c : positive) ec :
  bounded prec emax c ec = true ->
  (ec <= E /\ Zpos c = Zpos M * 2 ^ (E - ec)) \/
  (E <= ec /\ Zpos M = Zpos c * 2 ^ (ec - E)) ->
  binary_round prec emax s M E = S754_finite s c ec.
Proof.
  intros B V. pose proof (proj1 (bounded_iff _ _) B) as [F L].
  assert (X : fexp prec emax (Zpos (digits2_pos M) + E) = ec).
  { transitivity (fexp prec emax (Zpos (digits2_pos c) + ec)); [|exact F].
    f_equal.
    destruct V as [[O V]|[O V]].
    - rewrite (digits2_pos_shift c M (E - ec)) by (trivial; lia). lia.
    - rewrite (digits2_pos_shift M c (ec - E)) by (trivial; lia). lia. }
  unfold binary_round. rewrite X. unfold shl_align.
  destruct (ec - E) as [|p|p] eqn:S.
  - assert (Q : ec = E) by lia. clear X. subst ec.
    assert (c = M).
    { destruct V as [[_ V]|[_ V]];
        rewrite ?Z.sub_diag, ?Z.pow_0_r, ?Z.mul_1_r in V; congruence. }
    subst c. replace E with (E + 0) at 2 by lia.
    apply binary_round_aux_exact; try lia. now rewrite Z.add_0_r.
  - destruct V as [[O V]|[O V]]; [lia|].
    assert (Q : ec = E + Zpos p) by lia. rewrite Q.
    apply binary_round_aux_exact; [lia | exact V | rewrite <- Q; exact B].
  - destruct V as [[O V]|[O V]]; [|lia].
    assert (Pos.iter xO M p = c) as ->.
    { apply Pos2Z.inj. rewrite iter_xO_pow2, V. f_equal. f_equal. lia. }
    replace ec with (ec + 0) at 2 by lia.
    apply binary_round_aux_exact; try lia. now rewrite Z.add_0_r.
Qed.

(** The integer a canonical representation denotes. *)
Lemma shiftl_value (c : positive) ec V :
  (ec <= 0 /\ Zpos c = V * 2 ^ (- ec)) \/ (0 <= ec /\ V = Zpos c * 2 ^ ec) ->
  Z.shiftl (Zpos c) ec = V.
Proof.
  intros [[O E]|[O E]].
  - rewrite Z.shiftl_div_pow2 by lia. rewrite E.
    apply Z.div_mul. apply Z.pow_nonzero; lia.
  - rewrite Z.shiftl_mul_pow2 by lia. now rewrite E.
Qed.

Lemma widen_spec v :
  Zpos (digits2_pos v) <= prec ->
  Zpos (widen prec v) = Zpos v * 2 ^ (prec - Zpos (digits2_pos v)).
Proof.
  intros D. unfold widen. apply Z2Pos.id.
  apply Z.mul_pos_pos; [lia|]. apply Z.pow_pos_nonneg; lia.
Qed.

Lemma widen_bounded v :
  1 < prec -> prec < emax ->
  Zpos (digits2_pos v) <= prec ->
  bounded prec emax (widen prec v) (Zpos (digits2_pos v) - prec) = true.
Proof.
  intros Hp He D. apply bounded_normal.
  - rewrite (digits2_pos_shift (widen prec v) v (prec - Zpos (digits2_pos v)));
      try lia. now apply widen_spec.
  - pose proof (Pos2Z.is_pos (digits2_pos v)). lia.
Qed.

Lemma binary_round_integer s v :
  1 < prec -> prec < emax ->
  Zpos (digits2_pos v) <= prec ->
  binary_round prec emax s v 0
  = S754_finite s (widen prec v) (Zpos (digits2_pos v) - prec).
Proof.
  intros Hp He D. apply binary_round_canonical; [now apply widen_bounded|].
  left. split; [lia|]. rewrite widen_spec by trivial.
  f_equal. f_equal. lia.
Qed.

Lemma widen_value v :
  Zpos (digits2_pos v) <= prec ->
  Z.shiftl (Zpos (widen prec v)) (Zpos (digits2_pos v) - prec) = Zpos v.
Proof.
  intros D. apply shiftl_value. left. split; [lia|].
  rewrite widen_spec by trivial. f_equal. f_equal. lia.
Qed.

End FormatFacts.

(** ** Conversions between integers and floating-point values *)

Section ConversionFacts.
Variable F : floating_point.

Lemma of_integral_finite z :
  1 < digits F -> digits F < max_exponent F ->
  z <> 0 -> Z.abs z < 2 ^ digits F ->
  of_integral F z =
  S754_finite (z <? 0) (widen (digits F) (Z.to_pos (Z.abs z)))
    (Zpos (digits2_pos (Z.to_pos (Z.abs z))) - digits F).
Proof.
  intros Hp He NZ B. unfold of_integral, binary_normalize.
  destruct z as [|v|v]; [contradiction| |]; simpl in B |- *;
    apply binary_round_integer; trivial; now apply digits2_pos_below.
Qed.

Lemma truncate_of_integral z :
  1 < digits F -> digits F < max_exponent F ->
  Z.abs z < 2 ^ digits F -> truncate (of_integral F z) = Some z.
Proof.
  intros Hp He B. destruct (Z.eq_dec z 0) as [->|NZ]; [reflexivity|].
  rewrite of_integral_finite by trivial. cbn [truncate].
  rewrite widen_value by (destruct z; try contradiction; now apply digits2_pos_below).
  destruct z; [contradiction| |]; reflexivity.
Qed.

End ConversionFacts.

Lemma to_integral_truncate T x :
  to_integral T x =
  match truncate x with
  | Some z => if representable T z then Some z else None
  | None => None
  end.
Proof.
  destruct x; simpl; trivial. now rewrite representable_0.
Qed.

(** ** The power function *)

Section PowFacts.

Lemma double_digits : 1 < digits double_t.
Proof. reflexivity. Qed.

Lemma double_max_exponent : digits double_t < max_exponent double_t.
Proof. reflexivity. Qed.

(** A positive power of a mantissa of full width, rounded. *)
Lemma binary_round_pow s (v : positive) (q : positive) :
  Zpos v ^ Zpos q < 2 ^ (digits double_t) ->
  truncate
    (binary_round (digits double_t) (max_exponent double_t) s
       (Pos.pow (widen (digits double_t) v) q)
       ((Zpos (digits2_pos v) - (digits double_t)) * Zpos q))
  = Some (cond_Zopp s (Zpos v ^ Zpos q)).
Proof.
  intros B.
  assert (Dv : Zpos (digits2_pos v) <= (digits double_t)).
  { apply digits2_pos_below.
    apply Z.le_lt_trans with (Zpos v ^ Zpos q); [|exact B].
    rewrite <- (Z.pow_1_r (Zpos v)) at 1.
    apply Z.pow_le_mono_r; lia. }
  set (W := Pos.pow v q).
  assert (EW : Zpos W = Zpos v ^ Zpos q) by apply Pos2Z.inj_pow.
  assert (DW : Zpos (digits2_pos W) <= (digits double_t))
    by (apply digits2_pos_below; now rewrite EW).
  assert (EM : Zpos (Pos.pow (widen (digits double_t) v) q)
               = Zpos W * 2 ^ (((digits double_t) - Zpos (digits2_pos v)) * Zpos q)).
  { rewrite Pos2Z.inj_pow, (widen_spec (digits double_t)) by trivial.
    rewrite Z.pow_mul_l, <- Z.pow_mul_r, EW by lia. reflexivity. }
  rewrite (binary_round_canonical (digits double_t) (max_exponent double_t)
             s _ _ (widen (digits double_t) W) (Zpos (digits2_pos W) - (digits double_t))).
  - cbn [truncate]. rewrite (widen_value (digits double_t)) by trivial.
    now rewrite EW.
  - apply widen_bounded; trivial; reflexivity.
  - rewrite EM, (widen_spec (digits double_t)) by trivial.
    set (E := (Zpos (digits2_pos v) - (digits double_t)) * Zpos q).
    set (ec := Zpos (digits2_pos W) - (digits double_t)).
    replace (((digits double_t) - Zpos (digits2_pos v)) * Zpos q) with (- E) by (subst E; ring).
    replace ((digits double_t) - Zpos (digits2_pos W)) with (- ec) by (subst ec; ring).
    assert (E <= 0) by (subst E; nia).
    assert (ec <= 0) by (subst ec; lia).
    destruct (Z.le_ge_cases ec E) as [O|O]; [left|right]; split; trivial.
    + replace (- ec) with (- E + (E - ec)) by ring.
      rewrite Z.pow_add_r by lia. ring.
    + replace (- E) with (- ec + (ec - E)) by ring.
      rewrite Z.pow_add_r by lia. ring.
Qed.

Lemma cond_Zopp_pow (v q : positive) :
  cond_Zopp (true && Z.odd (Zpos q)) (Zpos v ^ Zpos q) = Zneg v ^ Zpos q.
Proof.
  destruct (Z.odd (Zpos q)) eqn:O; cbn [andb cond_Zopp];
    change (Zneg v) with (- Zpos v).
  - apply Z.odd_spec in O. now rewrite Z.pow_opp_odd.
  - rewrite <- Z.negb_even in O. apply negb_false_iff, Z.even_spec in O.
    now rewrite Z.pow_opp_even.
Qed.

(** Within the 53 bits of a [double], [std::pow] of two integers is the
    exact power. *)
Lemma std_pow_exact base power :
  0 <= power < 2 ^ (digits double_t) -> Z.abs base ^ power < 2 ^ (digits double_t) ->
  truncate (std_pow base power) = Some (base ^ power).
Proof.
  intros P B. unfold std_pow, pow_double.
  rewrite (truncate_of_integral double_t _ double_digits double_max_exponent)
    by (rewrite Z.abs_eq; lia).
  destruct (Z.eqb_spec power 0) as [->|NZ]; [reflexivity|].
  assert (G : (power >? 0) = true) by (apply Z.gtb_lt; lia).
  destruct power as [|q|q]; try lia. clear NZ.
  destruct (Z.eq_dec base 0) as [->|NB].
  - cbn [of_integral binary_normalize]. rewrite G. simpl truncate.
    now rewrite Z.pow_0_l by lia.
  - assert (Bb : Z.abs base < 2 ^ digits double_t).
    { apply Z.le_lt_trans with (Z.abs base ^ Zpos q); [|exact B].
      rewrite <- (Z.pow_1_r (Z.abs base)) at 1.
      apply Z.pow_le_mono_r; lia. }
    rewrite (of_integral_finite double_t _ double_digits double_max_exponent)
      by trivial.
    rewrite G. cbn [Z.abs Z.to_pos].
    destruct base as [|v|v]; [contradiction| |]; cbn [Z.abs Z.to_pos Z.ltb Z.compare].
    + rewrite (binary_round_pow _ v q) by exact B. reflexivity.
    + rewrite (binary_round_pow _ v q) by exact B.
      now rewrite cond_Zopp_pow.
Qed.

End PowFacts.

Section PowResult.
Variable T : integral.

Lemma gcd_pow_r n d p :
  0 <= p -> Z.gcd n d = 1 -> Z.gcd n (d ^ p) = 1.
Proof.
  intros P G. pattern p. apply natlike_ind; trivial.
  - apply Z.gcd_1_r.
  - intros x X IH. rewrite Z.pow_succ_r by trivial.
    now apply Z.coprime_mul_r.
Qed.

Lemma gcd_pow n d p :
  0 <= p -> Z.gcd n d = 1 -> Z.gcd (n ^ p) (d ^ p) = 1.
Proof.
  intros P G. apply gcd_pow_r; trivial.
  rewrite Z.gcd_comm. apply gcd_pow_r; trivial. now rewrite Z.gcd_comm.
Qed.

Lemma pow_returns value power :
  canonical value ->
  0 <= power < 2 ^ 53 ->
  Z.abs (numerator_ value) ^ power < 2 ^ 53 ->
  denominator_ value ^ power < 2 ^ 53 ->
  fits T (numerator_ value ^ power) ->
  fits T (denominator_ value ^ power) ->
  pow T value power
  = Ok (Rational (numerator_ value ^ power) (denominator_ value ^ power)).
Proof.
  destruct value as [n d]. simpl. intros C P Bn Bd Fn Fd.
  apply canonical_iff in C. destruct C as [Pd G]. simpl in Pd, G.
  assert (Pp : 0 < d ^ power) by (apply Z.pow_pos_nonneg; lia).
  unfold pow, numerator, denominator. simpl.
  rewrite !to_integral_truncate, !std_pow_exact;
    try assumption; try (rewrite Z.abs_eq by lia; assumption).
  rewrite (proj1 Fn), (proj1 Fd).
  rewrite rational_ctor_reduce by (trivial; lia).
  f_equal. apply (reduce_canonical_id (Rational (n ^ power) (d ^ power))).
  apply canonical_iff. simpl. split; [exact Pp|]. apply gcd_pow; lia.
Qed.

End PowResult.

(** ** Powers of two and division by them *)

Lemma power_of_two_spec n : 0 <= n -> Zpos (power_of_two n) = 2 ^ n.
Proof.
  intros N. unfold power_of_two. apply Z2Pos.id. apply Z.pow_pos_nonneg; lia.
Qed.

Lemma power_of_two_digits n : 0 <= n -> Zpos (digits2_pos (power_of_two n)) = n + 1.
Proof.
  intros N. apply digits2_pos_unique. rewrite power_of_two_spec by trivial.
  replace (n + 1 - 1) with n by lia. split; [lia|].
  apply Z.pow_lt_mono_r; lia.
Qed.

Lemma match_positive {A : Type} (z : Z) (a b c : A) :
  0 < z -> match z with 0 => a | Zpos _ => b | Zneg _ => c end = b.
Proof. destruct z; lia || reflexivity. Qed.

Section PowerOfTwoFacts.
Variables prec emax : Z.
Hypothesis prec_gt_1 : 1 < prec.
Hypothesis emax_gt_prec : prec < emax.

Lemma power_of_two_bounded k :
  3 - emax <= k + 1 <= emax ->
  bounded prec emax (power_of_two (prec - 1)) (k - prec + 1) = true.
Proof using prec_gt_1 emax_gt_prec.
  intros K. apply bounded_normal.
  - rewrite power_of_two_digits; lia.
  - lia.
Qed.

(** Rounding [M * 2 ^ E], when it is the power [2 ^ k]. *)
Lemma binary_round_power_of_two (M : positive) E k :
  3 - emax <= k + 1 <= emax -> E <= k -> Zpos M = 2 ^ (k - E) ->
  binary_round prec emax false M E
  = S754_finite false (power_of_two (prec - 1)) (k - prec + 1).
Proof using prec_gt_1 emax_gt_prec.
  intros K O V.
  apply binary_round_canonical; [now apply power_of_two_bounded|].
  rewrite power_of_two_spec, V by lia.
  destruct (Z.le_ge_cases (k - prec + 1) E) as [L|L]; [left|right];
    (split; [exact L|]); rewrite <- Z.pow_add_r by lia; f_equal; lia.
Qed.

(** Dividing a value of full-width mantissa by a power of two only
    moves the exponent. *)
Lemma SFdiv_power_of_two s (m : positive) e1 e2 :
  Zpos (digits2_pos m) = prec ->
  4 - emax - prec <= e1 - e2 - prec + 1 <= emax - prec ->
  SFdiv prec emax (S754_finite s m e1)
    (S754_finite false (power_of_two (prec - 1)) e2)
  = S754_finite s m (e1 - e2 - prec + 1).
Proof using prec_gt_1 emax_gt_prec.
  intros D B. unfold SFdiv, SFdiv_core_binary. cbn [Zdigits2].
  rewrite D, power_of_two_digits by lia.
  replace (prec + e1 - (prec - 1 + 1 + e2)) with (e1 - e2) by lia.
  assert (X : Z.min (fexp prec emax (e1 - e2)) (e1 - e2) = e1 - e2 - prec).
  { unfold fexp, emin. lia. }
  rewrite X. replace (e1 - e2 - (e1 - e2 - prec)) with prec by lia.
  rewrite match_positive by lia.
  change IntDef.Z.shiftl with Z.shiftl. rewrite Z.shiftl_mul_pow2 by lia.
  change IntDef.Z.div_eucl with Z.div_eucl.
  assert (Q : Z.div_eucl (Zpos m * 2 ^ prec) (Zpos (power_of_two (prec - 1)))
              = (Zpos m~0, 0)).
  { pose proof (power_of_two_spec (prec - 1)) as PS.
    assert (A : Zpos m * 2 ^ prec = Zpos m~0 * Zpos (power_of_two (prec - 1))).
    { rewrite PS by lia.
      replace (2 ^ prec) with (2 * 2 ^ (prec - 1))
        by (rewrite <- Z.pow_succ_r by lia; f_equal; lia).
      lia. }
    pose proof (Z.div_eucl_eq (Zpos m * 2 ^ prec) (Zpos (power_of_two (prec - 1))))
      as DE.
    pose proof (Z.mod_pos_bound (Zpos m * 2 ^ prec) (Zpos (power_of_two (prec - 1))))
      as MB.
    unfold Z.modulo in MB.
    destruct (Z.div_eucl (Zpos m * 2 ^ prec) (Zpos (power_of_two (prec - 1))))
      as [q r].
    specialize (DE ltac:(lia)). specialize (MB ltac:(lia)).
    assert (q = Zpos m~0) by nia. subst q. f_equal. nia. }
  rewrite Q. rewrite xorb_false_r.
  assert (L : new_location (Zpos (power_of_two (prec - 1))) 0 = loc_Exact).
  { unfold new_location, new_location_even, new_location_odd.
    now destruct (Z.even _). }
  rewrite L.
  replace (e1 - e2 - prec + 1) with ((e1 - e2 - prec) + 1) by lia.
  apply binary_round_aux_exact; try lia.
  apply bounded_normal; trivial. lia.
Qed.

End PowerOfTwoFacts.

Lemma std_exp2_normal k :
  -1022 <= k <= 1023 ->
  std_exp2 k = S754_finite false (power_of_two 52) (k - 52).
Proof.
  intros K. unfold std_exp2, binary_normalize.
  change (digits double_t) with 53. change (max_exponent double_t) with 1024.
  rewrite (binary_round_power_of_two 53 1024 ltac:(lia) ltac:(lia) 1 k k);
    try lia.
  - f_equal. lia.
  - now rewrite Z.sub_diag.
Qed.

Lemma to_integral_std_exp2 T k :
  0 <= k <= 1023 ->
  to_integral T (std_exp2 k) = if representable T (2 ^ k) then Some (2 ^ k) else None.
Proof.
  intros K. rewrite std_exp2_normal by lia. cbn [to_integral cond_Zopp].
  rewrite (shiftl_value _ _ (2 ^ k)); trivial.
  rewrite power_of_two_spec by lia.
  destruct (Z.le_ge_cases (k - 52) 0); [left|right]; (split; [lia|]);
    rewrite <- Z.pow_add_r by lia; f_equal; lia.
Qed.

(** ** The conversion from floating point *)

Lemma divisor_of_power_of_two k :
  0 <= k -> forall d, 0 < d -> (d | 2 ^ k) -> exists j, 0 <= j <= k /\ d = 2 ^ j.
Proof.
  intros K. pattern k. apply natlike_ind; trivial; clear k K.
  - intros d P D. exists 0. split; [lia|].
    simpl in D. apply Z.divide_1_r_nonneg in D; lia.
  - intros k K IH d P D. rewrite Z.pow_succ_r in D by trivial.
    destruct (Z.even d) eqn:Ev.
    + apply Z.even_spec in Ev. destruct Ev as [d' ->].
      destruct (IH d') as (j & J & ->); [lia| |].
      * apply Z.mul_divide_cancel_l in D; trivial. lia.
      * exists (Z.succ j). split; [lia|]. now rewrite Z.pow_succ_r by lia.
    + rewrite <- Z.negb_odd in Ev. apply negb_false_iff, Z.odd_spec in Ev.
      destruct Ev as [q ->].
      destruct (IH (2 * q + 1)) as (j & J & E); trivial.
      * apply Z.gauss with 2; trivial.
        rewrite Z.gcd_comm, Z.add_comm, Z.mul_comm.
        rewrite Z.gcd_add_mult_diag_r. reflexivity.
      * exists j. split; [lia|exact E].
Qed.

Lemma reduce_one n : reduce n 1 = Rational n 1.
Proof.
  unfold reduce. rewrite Z.gcd_1_r, !Z.div_1_r. reflexivity.
Qed.

(** The reduction of a fraction whose denominator is a power of two. *)
Lemma reduce_power_of_two n k :
  0 <= k ->
  exists j, 0 <= j <= k /\
            denominator_ (reduce n (2 ^ k)) = 2 ^ j /\
            n = numerator_ (reduce n (2 ^ k)) * 2 ^ (k - j).
Proof.
  intros K.
  assert (NZ : 2 ^ k <> 0) by (apply Z.pow_nonzero; lia).
  pose proof (reduce_canonical n (2 ^ k) NZ) as C.
  pose proof (reduce_value n (2 ^ k) NZ) as V.
  destruct (reduce n (2 ^ k)) as [a b]. simpl in *.
  apply canonical_iff in C. destruct C as [P G]. simpl in P, G.
  destruct (divisor_of_power_of_two k K b P) as (j & J & ->).
  - apply Z.gauss with a; [exists n; lia | now rewrite Z.gcd_comm].
  - exists j. repeat split; try lia.
    replace k with (k - j + j) in V at 1 by lia.
    rewrite Z.pow_add_r in V by lia.
    assert (0 < 2 ^ j) by (apply Z.pow_pos_nonneg; lia). nia.
Qed.

Section LiftFacts.
Variable F : floating_point.
Hypothesis format : format_ok F.

Lemma float_cast_exp2_digits :
  float_cast F (std_exp2 (digits F))
  = S754_finite false (power_of_two (digits F - 1)) 1.
Proof using format.
  destruct format as [[P1 P2] [E1 E2]].
  rewrite std_exp2_normal by lia. cbn [float_cast].
  rewrite (binary_round_power_of_two (digits F) (max_exponent F) P1 ltac:(lia)
             _ _ (digits F)); try lia.
  - f_equal. lia.
  - rewrite power_of_two_spec by lia. f_equal. lia.
Qed.

Lemma std_frexp_normal s m e :
  Zpos (digits2_pos m) = digits F ->
  std_frexp F (S754_finite s m e)
  = (S754_finite s m (- digits F), e + digits F).
Proof using Type.
  intros D. unfold std_frexp, SFfrexp. rewrite D.
  now rewrite Z.leb_refl.
Qed.

Lemma float_mul_exp2_digits s m :
  Zpos (digits2_pos m) = digits F ->
  float_mul F (S754_finite s m (- digits F))
    (S754_finite false (power_of_two (digits F - 1)) 1)
  = S754_finite s m 0.
Proof using format.
  destruct format as [[P1 P2] [E1 E2]].
  intros D. unfold float_mul, SFmul. rewrite xorb_false_r.
  rewrite (binary_round_aux_exact _ _ s _ m (- digits F + 1) (digits F - 1));
    try lia.
  - f_equal. lia.
  - rewrite Pos2Z.inj_mul, power_of_two_spec by lia. reflexivity.
  - apply bounded_normal; trivial. lia.
Qed.

(** A valid value above the exponent of the split has a mantissa of
    full width. *)
Lemma normal_mantissa s m e :
  valid_binary (digits F) (max_exponent F) (S754_finite s m e) = true ->
  1 - max_exponent F < e ->
  Zpos (digits2_pos m) = digits F /\ e <= max_exponent F - digits F.
Proof using format.
  destruct format as [[P1 P2] [E1 E2]].
  cbn [valid_binary]. intros B L. apply bounded_iff in B.
  destruct B as [X Y]. split; [|exact Y].
  unfold fexp, emin in X. lia.
Qed.

Lemma of_integral_canonical z c ec :
  z <> 0 -> bounded (digits F) (max_exponent F) c ec = true ->
  (ec <= 0 /\ Zpos c = Z.abs z * 2 ^ (- ec)) \/
  (0 <= ec /\ Z.abs z = Zpos c * 2 ^ ec) ->
  of_integral F z = S754_finite (z <? 0) c ec.
Proof using Type.
  intros NZ B V. unfold of_integral, binary_normalize.
  destruct z as [|v|v]; [contradiction| |]; cbn [Z.abs Z.ltb Z.compare] in V |- *;
    apply binary_round_canonical; trivial;
    (destruct V as [[O V]|[O V]]; [left|right]; (split; [lia|]));
    rewrite V; f_equal; f_equal; lia.
Qed.

Lemma of_integral_power_of_two j :
  0 <= j < max_exponent F ->
  of_integral F (2 ^ j)
  = S754_finite false (power_of_two (digits F - 1)) (j - digits F + 1).
Proof using format.
  destruct format as [[P1 P2] [E1 E2]].
  intros J. assert (0 < 2 ^ j) by (apply Z.pow_pos_nonneg; lia).
  replace false with (2 ^ j <? 0) by (apply Z.ltb_ge; lia).
  apply of_integral_canonical; try lia.
  - apply power_of_two_bounded; lia.
  - rewrite Z.abs_eq, power_of_two_spec by lia.
    destruct (Z.le_ge_cases (j - digits F + 1) 0); [left|right];
      (split; [lia|]); rewrite <- Z.pow_add_r by lia; f_equal; lia.
Qed.

(** Evaluating a numerator over a power of two, when the mantissa [m]
    is the magnitude of the numerator shifted left by [t] bits. *)
Lemma evaluate_dyadic s m e n j t :
  Zpos (digits2_pos m) = digits F ->
  1 - max_exponent F < e <= max_exponent F - digits F ->
  n <> 0 -> (n <? 0) = s ->
  0 <= j < max_exponent F -> - t <= max_exponent F - digits F ->
  (t <= 0 /\ Z.abs n = Zpos m * 2 ^ (- t)) \/ (0 <= t /\ Zpos m = Z.abs n * 2 ^ t) ->
  e = - (t + j) ->
  evaluate F (Rational n (2 ^ j)) = S754_finite s m e.
Proof using format.
  destruct format as [[P1 P2] [E1 E2]].
  intros D B NZ S J Bt V E. unfold evaluate. cbn [numerator_ denominator_].
  rewrite of_integral_power_of_two by trivial.
  rewrite (of_integral_canonical n m (- t)); trivial.
  - rewrite S. unfold float_div.
    rewrite SFdiv_power_of_two; trivial; try lia.
    f_equal. lia.
  - apply bounded_normal; trivial. lia.
  - destruct V as [[O V]|[O V]]; [right|left]; (split; [lia|]);
      rewrite V; f_equal; f_equal; lia.
Qed.

End LiftFacts.

Section FloatRoundTripFacts.
Variable T : integral.
Variable F : floating_point.
Hypothesis format : format_ok F.

Lemma assign_returns n d s r :
  representable T n = true -> representable T d = true ->
  assign T n d s = Returns tt r -> d <> 0 /\ r = reduce n d.
Proof using Type.
  intros Rn Rd. unfold assign.
  destruct (Z.eqb_spec d 0) as [|NZ]; [discriminate|].
  run. intros C. split; trivial.
  apply canonize_returns in C; [|split; trivial]. now destruct C.
Qed.

Lemma assign_one_returns n s r :
  representable T n = true ->
  assign T n 1 s = Returns tt r -> r = Rational n 1.
Proof using Type.
  intros Rn A.
  assert (R1 : representable T 1 = true).
  { revert A. unfold assign, canonize. simpl. run. unfold std_gcd.
    destruct (representable T (Z.abs n)); [|discriminate].
    simpl (Z.abs 1). destruct (representable T 1); [reflexivity|discriminate]. }
  destruct (assign_returns n 1 s r Rn R1 A) as [_ ->]. apply reduce_one.
Qed.

Lemma cond_Zopp_sign s (m : positive) :
  Z.abs (cond_Zopp s (Zpos m)) = Zpos m /\
  (cond_Zopp s (Zpos m) <? 0) = s /\
  cond_Zopp s (Zpos m) <> 0.
Proof using Type. destruct s; simpl; repeat split; discriminate. Qed.

Lemma scaled_sign z p : 0 < p -> (z * p <? 0) = (z <? 0).
Proof using Type.
  intros P. destruct (Z.ltb_spec (z * p) 0), (Z.ltb_spec z 0); trivial; nia.
Qed.

(** The product of the numerator and the power of two, when it does
    not wrap. *)
Lemma scaled_numerator s (m : positive) e v :
  0 <= e ->
  representable T (cond_Zopp s (Zpos m)) = true ->
  representable T (Zpos m * 2 ^ e) = true ->
  int_mul T (cond_Zopp s (Zpos m)) (2 ^ e) = Some v ->
  v = cond_Zopp s (Zpos m) * 2 ^ e.
Proof using Type.
  intros E Rz Rp M. unfold int_mul in M.
  destruct (is_signed T) eqn:Sg.
  - now apply (arith_signed T _ _ Sg) in M.
  - apply (arith_inv T _ _ M).
    apply (unsigned_range T _ Sg) in Rz.
    destruct s; simpl in Rz |- *; [lia|exact Rp].
Qed.

Lemma float_round_trip_finite s m e r :
  valid_binary (digits F) (max_exponent F) (S754_finite s m e) = true ->
  1 - max_exponent F < e ->
  (0 < e -> representable T (Zpos m * 2 ^ e) = true) ->
  rational_ctor_float T F (S754_finite s m e) = Ok r ->
  evaluate F r = S754_finite s m e.
Proof using format.
  intros Valid Above NoWrap.
  destruct (normal_mantissa F format s m e Valid Above) as [D Le].
  destruct format as [[P1 P2] [E1 E2]].
  destruct (cond_Zopp_sign s m) as (Abs & Sign & NZ).
  unfold rational_ctor_float, complete.
  destruct (assign_float T F (S754_finite s m e) (Rational 0 0))
    as [[] r'| |] eqn:A; try discriminate.
  intros [= <-]. revert A. unfold assign_float. cbn [isfinite negb].
  rewrite (std_frexp_normal F s m e D).
  rewrite (float_cast_exp2_digits F format).
  rewrite (float_mul_exp2_digits F format s m D).
  cbn [to_integral]. rewrite Z.shiftl_0_r.
  replace (e + digits F - digits F) with e by lia.
  run. destruct (representable T (cond_Zopp s (Zpos m))) eqn:Rz;
    [|discriminate].
  cbn [numerator_ denominator_].
  destruct (Z.gtb_spec e 0) as [Pe|Npe].
  - (* the value is scaled up *)
    rewrite to_integral_std_exp2 by lia.
    destruct (representable T (2 ^ e)) eqn:Rp; [|discriminate].
    cbn [numerator_ denominator_]. intros A. peel A.
    pose proof (scaled_numerator s m e _ ltac:(lia) Rz (NoWrap Pe) E) as ->.
    apply assign_one_returns in A;
      [|eapply arith_representable; exact E]. subst r'.
    change 1 with (2 ^ 0).
    assert (P2e : 0 < 2 ^ e) by (apply Z.pow_pos_nonneg; lia).
    assert (NZv : cond_Zopp s (Zpos m) * 2 ^ e <> 0)
      by (apply Z.neq_mul_0; split; [exact NZ|lia]).
    assert (Sv : (cond_Zopp s (Zpos m) * 2 ^ e <? 0) = s)
      by (now rewrite scaled_sign).
    apply (evaluate_dyadic F format s m e _ 0 (- e)); trivial; try lia.
    all: left; split; [lia|]; rewrite Z.abs_mul, Abs, Z.opp_involutive;
      f_equal; apply Z.abs_eq; lia.
  - destruct (Z.ltb_spec e 0) as [Ne|Nne].
    + (* the value is scaled down *)
      destruct (Z.geb_spec (- e) (max_exponent F - 1)) as [|_]; [lia|].
      rewrite to_integral_std_exp2 by lia.
      destruct (representable T (2 ^ (- e))) eqn:Rp; [|discriminate].
      cbn [numerator_ denominator_]. intros A. peel A.
      assert (z = 1 * 2 ^ (- e)) as ->
          by (apply (arith_inv T _ _ E); now rewrite Z.mul_1_l).
      rewrite Z.mul_1_l in *.
      apply assign_returns in A; trivial. destruct A as [_ ->].
      destruct (reduce_power_of_two (cond_Zopp s (Zpos m)) (- e) ltac:(lia))
        as (j & J & Ed & En).
      destruct (reduce (cond_Zopp s (Zpos m)) (2 ^ (- e))) as [a b].
      cbn [numerator_ denominator_] in Ed, En. subst b.
      assert (P2t : 0 < 2 ^ (- e - j)) by (apply Z.pow_pos_nonneg; lia).
      assert (NZa : a <> 0) by (intros ->; now rewrite Z.mul_0_l in En).
      assert (Sa : (a <? 0) = s)
        by (rewrite <- Sign, En at 1; now rewrite scaled_sign).
      apply (evaluate_dyadic F format s m e a j (- e - j)); trivial; try lia.
      all: right; split; [lia|]; rewrite <- Abs, En, Z.abs_mul;
        f_equal; apply Z.abs_eq; lia.
    + (* the value is an integer of full width *)
      assert (e = 0) by lia. subst e.
      cbv beta. cbn [numerator_ denominator_].
      intros A. apply assign_one_returns in A; trivial. subst r'.
      change 1 with (2 ^ 0).
      apply (evaluate_dyadic F format s m 0 _ 0 0); trivial; try lia.
      all: left; split; [lia|]; rewrite Abs; simpl; lia.
Qed.

End FloatRoundTripFacts.

Section FloatRoundTripZero.
Variable T : integral.
Variable F : floating_point.
Hypothesis format : format_ok F.

Lemma reduce_zero d : 0 < d -> reduce 0 d = Rational 0 1.
Proof using Type.
  intros P. unfold reduce. simpl Z.gcd. rewrite Z.abs_eq by lia.
  rewrite Z.div_0_l, Z.div_same by lia. reflexivity.
Qed.

Lemma evaluate_zero : evaluate F (Rational 0 1) = S754_zero false.
Proof using format.
  unfold evaluate. cbn [numerator_ denominator_].
  change 1 with (2 ^ 0). rewrite (of_integral_power_of_two F format).
  - reflexivity.
  - destruct format as [[P1 P2] [E1 E2]]. lia.
Qed.

Lemma float_round_trip_zero r :
  rational_ctor_float T F (S754_zero false) = Ok r ->
  evaluate F r = S754_zero false.
Proof using format.
  pose proof format as [[P1 P2] [E1 E2]].
  unfold rational_ctor_float, complete.
  destruct (assign_float T F (S754_zero false) (Rational 0 0))
    as [[] r'| |] eqn:A; try discriminate.
  intros [= <-]. revert A. unfold assign_float. cbn [isfinite negb std_frexp].
  rewrite (float_cast_exp2_digits F format).
  cbn [float_mul SFmul xorb to_integral].
  destruct (Z.gtb_spec (0 - digits F) 0); [lia|].
  destruct (Z.ltb_spec (0 - digits F) 0); [|lia].
  run. destruct (- (0 - digits F) >=? max_exponent F - 1).
  - intros A. peel A.
    assert (z0 = 0) as ->.
    { unfold int_div in E0. destruct (Z.eqb_spec z 0) as [|NZ]; [discriminate|].
      rewrite Z.quot_0_l in E0 by exact NZ.
      apply (arith_inv T _ _ E0), representable_0. }
    simpl in A. discriminate.
  - rewrite to_integral_std_exp2 by lia.
    destruct (representable T (2 ^ (- (0 - digits F)))) eqn:Rp; [|discriminate].
    cbn [numerator_ denominator_]. intros A. peel A.
    assert (z = 1 * 2 ^ (- (0 - digits F))) as ->
        by (apply (arith_inv T _ _ E); now rewrite Z.mul_1_l).
    rewrite Z.mul_1_l in *.
    apply assign_returns in A; trivial; [|apply representable_0].
    destruct A as [_ ->]. rewrite reduce_zero by (apply Z.pow_pos_nonneg; lia).
    apply evaluate_zero.
Qed.

End FloatRoundTripZero.

Section ConversionReturns.
Variable T : integral.
Variable F : floating_point.
Hypothesis format : format_ok F.

Lemma assign_reduce n d s :
  fits T n -> fits T d -> d <> 0 ->
  assign T n d s = Returns tt (reduce n d).
Proof using Type.
  intros Fn Fd NZ. unfold assign.
  destruct (Z.eqb_spec d 0) as [|_]; [contradiction|].
  run. apply (canonize_reduce T (Rational n d)); simpl; auto.
Qed.

Lemma fits_power_of_two z p :
  z <> 0 -> 0 < p -> fits T (z * p) -> fits T z /\ fits T p.
Proof using Type.
  intros NZ P [R A].
  assert (Rp : representable T p = true)
    by (apply (representable_between T (Z.abs (z * p))); trivial; nia).
  repeat split; trivial.
  - apply (representable_between T (z * p)); trivial; nia.
  - apply (representable_between T (Z.abs (z * p))); trivial; nia.
  - now rewrite Z.abs_eq by lia.
Qed.

Lemma rational_ctor_float_returns_finite s m e :
  valid_binary (digits F) (max_exponent F) (S754_finite s m e) = true ->
  directly_scaled T F (S754_finite s m e) ->
  exists r, rational_ctor_float T F (S754_finite s m e) = Ok r.
Proof using format.
  intros Valid [Above Fit].
  destruct (normal_mantissa F format s m e Valid Above) as [D Le].
  pose proof format as [[P1 P2] [E1 E2]].
  destruct (cond_Zopp_sign s m) as (Abs & Sign & NZ).
  unfold rational_ctor_float, complete, assign_float. cbn [isfinite negb].
  rewrite (std_frexp_normal F s m e D).
  rewrite (float_cast_exp2_digits F format).
  rewrite (float_mul_exp2_digits F format s m D).
  cbn [to_integral]. rewrite Z.shiftl_0_r.
  replace (e + digits F - digits F) with e by lia.
  destruct (Z.leb_spec 0 e) as [Pe|Ne].
  - assert (P2e : 0 < 2 ^ e) by (apply Z.pow_pos_nonneg; lia).
    destruct (fits_power_of_two _ _ NZ P2e Fit) as [Fz Fp].
    assert (F1 : fits T 1).
    { split; apply (representable_between T (2 ^ e)); try apply Fp; simpl; lia. }
    run. rewrite (proj1 Fz). cbn [numerator_ denominator_].
    destruct (Z.gtb_spec e 0) as [Gt|Le0].
    + rewrite to_integral_std_exp2 by lia. rewrite (proj1 Fp).
      cbn [numerator_ denominator_]. unfold int_mul.
      rewrite (arith_exact T _ (proj1 Fit)). cbn [numerator_ denominator_].
      rewrite assign_reduce; trivial; [eauto|lia].
    + destruct (Z.ltb_spec e 0); [lia|].
      cbv beta. cbn [numerator_ denominator_].
      rewrite assign_reduce; trivial; [eauto|lia].
  - destruct Fit as [Fz Rp].
    assert (P2e : 0 < 2 ^ (- e)) by (apply Z.pow_pos_nonneg; lia).
    assert (Fp : fits T (2 ^ (- e)))
      by (split; [|rewrite Z.abs_eq by lia]; trivial).
    run. rewrite (proj1 Fz). cbn [numerator_ denominator_].
    destruct (Z.gtb_spec e 0); [lia|].
    destruct (Z.ltb_spec e 0); [|lia].
    destruct (Z.geb_spec (- e) (max_exponent F - 1)); [lia|].
    rewrite to_integral_std_exp2 by lia. rewrite Rp.
    cbn [numerator_ denominator_]. unfold int_mul.
    rewrite Z.mul_1_l, (arith_exact T _ Rp). cbn [numerator_ denominator_].
    rewrite assign_reduce; trivial; [eauto|lia].
Qed.

Lemma rational_ctor_float_returns_zero :
  representable T (2 ^ digits F) = true ->
  exists r, rational_ctor_float T F (S754_zero false) = Ok r.
Proof using format.
  intros Rp. pose proof format as [[P1 P2] [E1 E2]].
  assert (P2e : 0 < 2 ^ digits F) by (apply Z.pow_pos_nonneg; lia).
  unfold rational_ctor_float, complete, assign_float.
  cbn [isfinite negb std_frexp].
  rewrite (float_cast_exp2_digits F format).
  cbn [float_mul SFmul xorb to_integral].
  destruct (Z.gtb_spec (0 - digits F) 0); [lia|].
  destruct (Z.ltb_spec (0 - digits F) 0); [|lia].
  destruct (Z.geb_spec (- (0 - digits F)) (max_exponent F - 1)); [lia|].
  replace (- (0 - digits F)) with (digits F) by lia.
  run. rewrite to_integral_std_exp2 by lia. rewrite Rp.
  cbn [numerator_ denominator_]. unfold int_mul.
  rewrite Z.mul_1_l, (arith_exact T _ Rp). cbn [numerator_ denominator_].
  rewrite assign_reduce; [eauto| | |lia].
  - split; apply representable_0.
  - split; [|rewrite Z.abs_eq by lia]; trivial.
Qed.

End ConversionReturns.

(** * The claims of the specification *)

(** ** Canonical form *)




(** ** Failure and the state of the object *)

(** C3.  The assignment from floating point breaks the claim: from the
    least positive [float], on [unsigned __int128], it throws the domain
    error of the underflow after it has overwritten both fields of the
    canonical object 1/3. *)
Theorem assign_float_underflow_mutates :
  valid_binary (digits float_t) (max_exponent float_t) (S754_finite false 1 (-149)) = true /\
  canonical (Rational 1 3) /\
  well_typed unsigned_int128 (Rational 1 3) /\
  apply unsigned_int128 (Assign_float float_t (S754_finite false 1 (-149))) (Rational 1 3)
    = Throws "Value evaluates to zero due to being too small."
        (Rational 0 (2 ^ 127)) /\
  Rational 0 (2 ^ 127) <> Rational 1 3.
Proof.
  repeat split; try reflexivity. discriminate.
Qed.

(** ** The invert operator *)

(** C4 (as amended).  The invert operator builds its result with the
    two-argument constructor, which validates the new denominator: on
    every rational whose numerator is zero it fails with the domain error
    of the constructor, "Denominator can not be zero.".  On a canonical
    rational whose fields are values of the base type it returns the
    swapped pair when the numerator is positive; when the numerator is
    negative and its negation is a value of the base type it returns the
    swapped pair with the sign moved to the new numerator; and when the
    numerator is negative and its negation is no value of the base type
    (the least value of a signed type) its behaviour is undefined. *)
Theorem operator_tilde_validates (T : integral) (r : rational) :
  (numerator_ r = 0 ->
   operator_tilde T r = DomainError "Denominator can not be zero.") /\
  (well_typed T r -> canonical r ->
   (0 < numerator_ r ->
    operator_tilde T r = Ok (Rational (denominator_ r) (numerator_ r))) /\
   (numerator_ r < 0 -> representable T (- numerator_ r) = true ->
    operator_tilde T r = Ok (Rational (- denominator_ r) (- numerator_ r))) /\
   (numerator_ r < 0 -> representable T (- numerator_ r) = false ->
    operator_tilde T r = UB)).
Proof.
  destruct r as [n d]. cbn [numerator_ denominator_]. split.
  - intros ->. reflexivity.
  - intros [Rn Rd] C. simpl in Rn, Rd.
    apply canonical_iff in C. destruct C as [P G]. simpl in P, G.
    assert (Fd : fits T d) by (split; [|rewrite Z.abs_eq by lia]; trivial).
    unfold operator_tilde. cbn [numerator_ denominator_]. repeat split.
    + intros Pn. rewrite rational_ctor_reduce; trivial; try lia.
      * rewrite reduce_swap by (trivial; lia).
        destruct (Z.ltb_spec n 0); [lia|reflexivity].
      * split; [|rewrite Z.abs_eq by lia]; trivial.
    + intros Nn Rm. rewrite rational_ctor_reduce; trivial; try lia.
      * rewrite reduce_swap by (trivial; lia).
        destruct (Z.ltb_spec n 0); [reflexivity|lia].
      * split; [|rewrite Z.abs_neq by lia]; trivial.
    + intros Nn Rm. unfold rational_ctor, complete.
      destruct (Z.eqb_spec n 0) as [|_]; [lia|].
      unfold canonize. run. unfold std_gcd.
      rewrite (Z.abs_neq n) by lia. rewrite Rm, andb_false_r. reflexivity.
Qed.

Lemma operator_tilde_validates_witness :
  operator_tilde int_t (Rational 0 5) = DomainError "Denominator can not be zero." /\
  well_typed int_t (Rational (-3) 2) /\ canonical (Rational (-3) 2) /\
  operator_tilde int_t (Rational (-3) 2) = Ok (Rational (-2) 3) /\
  well_typed int_t (Rational (-2147483648) 3) /\ canonical (Rational (-2147483648) 3) /\
  operator_tilde int_t (Rational (-2147483648) 3) = UB.
Proof.
  assert (W : well_typed int_t (Rational (-3) 2)) by (split; reflexivity).
  assert (C : canonical (Rational (-3) 2)) by reflexivity.
  assert (W' : well_typed int_t (Rational (-2147483648) 3)) by (split; reflexivity).
  assert (C' : canonical (Rational (-2147483648) 3)) by reflexivity.
  refine (conj _ (conj W (conj C (conj _ (conj W' (conj C' _)))))).
  - apply (proj1 (operator_tilde_validates int_t (Rational 0 5))). reflexivity.
  - apply (proj1 (proj2 (proj2 (operator_tilde_validates int_t (Rational (-3) 2)) W C)));
      simpl; [lia | reflexivity].
  - apply (proj2 (proj2 (proj2 (operator_tilde_validates int_t (Rational (-2147483648) 3)) W' C')));
      simpl; [lia | reflexivity].
Defined.

(** C4 (as stated) fails: inverting 0/1 does not yield the swapped pair,
    it fails with a domain error at the point of the operation. *)
Lemma operator_tilde_counterexample :
  rational_ctor int_t 0 1 = Ok (Rational 0 1) /\
  operator_tilde int_t (Rational 0 1) = DomainError "Denominator can not be zero." /\
  operator_tilde int_t (Rational 0 1) <> Ok (Rational 1 0).
Proof.
  repeat split; try reflexivity. discriminate.
Qed.

(** ** Zero denominators and division by zero *)

(** C5.  A zero denominator given to the two-argument constructor, to the
    denominator setter or to [assign], the division by a rational whose
    numerator is zero and the division by the integer zero all fail with a
    domain error; no object is built, and an existing object is left as
    it was.  In particular [rational(1, 0)] fails with a domain error. *)
Theorem zero_denominator_domain_error (T : integral) (n d : Z) (s : rational) :
  rational_ctor T n 0 = DomainError "Denominator can not be zero." /\
  denominator_set T 0 s = Throws "Denominator can not be zero." s /\
  assign T n 0 s = Throws "Denominator can not be zero." s /\
  operator_div_eq T (Rational 0 d) s = Throws "Division by zero." s /\
  operator_div_eq_int T 0 s = Throws "Division by zero." s /\
  operator_div_ri T s 0 = DomainError "Division by zero." /\
  rational_ctor T 1 0 = DomainError "Denominator can not be zero.".
Proof.
  repeat split.
Qed.

(** ** Addition *)

Section AdditionFacts.
Variable T : integral.

Lemma arith_congruence z v : arith T z = Some v -> congruent T v z.
Proof. apply arith_congruent. Qed.

Lemma congruent_divide x y : congruent T x y <-> (modulus T | x - y).
Proof.
  unfold congruent. pose proof (modulus_pos T).
  split; intros H0; [apply Z.mod_divide in H0 | apply Z.mod_divide]; trivial; lia.
Qed.

Lemma operator_plus_eq_returns this that :
  fits T (numerator_ this * denominator_ that) ->
  fits T (denominator_ this * numerator_ that) ->
  fits T (numerator_ this * denominator_ that + denominator_ this * numerator_ that) ->
  fits T (denominator_ this * denominator_ that) ->
  denominator_ this <> 0 -> denominator_ that <> 0 ->
  operator_plus_eq T that this =
  Returns tt (reduce (numerator_ this * denominator_ that
                      + denominator_ this * numerator_ that)
                     (denominator_ this * denominator_ that)).
Proof.
  destruct this as [a b], that as [c d]. simpl.
  intros F1 F2 F3 F4 NZ1 NZ2.
  unfold operator_plus_eq. run. unfold int_mul, int_add.
  rewrite (arith_exact T _ (proj1 F1)). cbn [numerator_ denominator_].
  rewrite (arith_exact T _ (proj1 F2)). cbn [numerator_ denominator_].
  rewrite (arith_exact T _ (proj1 F3)). cbn [numerator_ denominator_].
  rewrite (arith_exact T _ (proj1 F4)). cbn [numerator_ denominator_].
  apply (canonize_reduce T (Rational (a * d + b * c) (b * d))); simpl; trivial.
  right. nia.
Qed.

Lemma operator_plus_eq_canonize this that s' :
  operator_plus_eq T that this = Returns tt s' ->
  exists n d,
    congruent T n (numerator_ this * denominator_ that
                   + denominator_ this * numerator_ that) /\
    congruent T d (denominator_ this * denominator_ that) /\
    representable T n = true /\ representable T d = true /\
    canonize T (Rational n d) = Returns tt s'.
Proof.
  destruct this as [a b]. unfold operator_plus_eq. run. intros H. peel H.
  exists z1, z2. repeat split; trivial.
  - unfold int_mul, int_add in *.
    apply arith_congruence, congruent_divide in E, E0, E1.
    apply congruent_divide.
    destruct E as [x E], E0 as [y E0], E1 as [w E1].
    exists (x + y + w). lia.
  - now apply arith_congruence.
  - eapply arith_representable; eauto.
  - eapply arith_representable; eauto.
Qed.

End AdditionFacts.

(** C6.  Addition computes the raw combination [(a*d + b*c) / (b*d)] in
    the arithmetic of the base type and then canonizes it: whenever [+=]
    returns, the object is what [canonize] makes of the raw numerator and
    denominator; when the raw combination does not overflow, the result is
    its reduction to lowest terms; and 1/3 + 1/6 is the canonical 1/2. *)
Theorem addition_raw_then_canonize (T : integral) :
  (forall this that s',
      operator_plus_eq T that this = Returns tt s' ->
      exists n d,
        congruent T n (numerator_ this * denominator_ that
                       + denominator_ this * numerator_ that) /\
        congruent T d (denominator_ this * denominator_ that) /\
        representable T n = true /\ representable T d = true /\
        canonize T (Rational n d) = Returns tt s') /\
  (forall this that,
      fits T (numerator_ this * denominator_ that) ->
      fits T (denominator_ this * numerator_ that) ->
      fits T (numerator_ this * denominator_ that
              + denominator_ this * numerator_ that) ->
      fits T (denominator_ this * denominator_ that) ->
      denominator_ this <> 0 -> denominator_ that <> 0 ->
      operator_plus_eq T that this =
      Returns tt (reduce (numerator_ this * denominator_ that
                          + denominator_ this * numerator_ that)
                         (denominator_ this * denominator_ that))) /\
  (rational_ctor int_t 1 3 = Ok (Rational 1 3) /\
   rational_ctor int_t 1 6 = Ok (Rational 1 6) /\
   complete (operator_plus_eq int_t (Rational 1 6)) (Rational 1 3)
     = Ok (Rational 1 2)).
Proof.
  split; [|split].
  - apply operator_plus_eq_canonize.
  - apply operator_plus_eq_returns.
  - repeat split.
Qed.

Lemma addition_raw_then_canonize_witness :
  operator_plus_eq long_long (Rational 5 12) (Rational (-7) 4)
  = Returns tt (Rational (-4) 3).
Proof.
  apply (proj1 (proj2 (addition_raw_then_canonize long_long))
           (Rational (-7) 4) (Rational 5 12));
    simpl; try lia; split; reflexivity.
Defined.

(** ** Ordering *)

Section OrderingFacts.
Variable T : integral.

Lemma rational_eqb_eq a b : rational_eqb a b = true <-> a = b.
Proof.
  destruct a as [n d], b as [n' d']. unfold rational_eqb. simpl.
  rewrite andb_true_iff, !Z.eqb_eq. split.
  - intros [-> ->]. reflexivity.
  - intros [= -> ->]. auto.
Qed.

Lemma operator_spaceship_exact a b :
  comparable T a b ->
  operator_spaceship T a b =
  Some (if operator_eq a b then Eq
        else numerator_ a * denominator_ b ?= denominator_ a * numerator_ b).
Proof.
  intros [L R]. unfold operator_spaceship, int_mul.
  rewrite (arith_exact T _ L), (arith_exact T _ R).
  now destruct (operator_eq a b).
Qed.

(** Canonical rationals with equal cross products are the same pair. *)
Lemma cross_equal a b :
  canonical a -> canonical b ->
  numerator_ a * denominator_ b = denominator_ a * numerator_ b ->
  operator_eq a b = true.
Proof.
  intros Ca Cb E. apply rational_eqb_eq. apply canonical_unique; trivial. lia.
Qed.

Lemma operator_lt_iff a b :
  canonical a -> canonical b -> comparable T a b ->
  (operator_lt T a b <->
   numerator_ a * denominator_ b < denominator_ a * numerator_ b).
Proof.
  intros Ca Cb Cm. unfold operator_lt.
  rewrite (operator_spaceship_exact a b Cm).
  destruct (operator_eq a b) eqn:E.
  - apply rational_eqb_eq in E. subst b. split; [discriminate | lia].
  - rewrite <- Z.compare_lt_iff. split; congruence.
Qed.

Lemma operator_gt_iff a b :
  canonical a -> canonical b -> comparable T a b ->
  (operator_gt T a b <->
   numerator_ a * denominator_ b > denominator_ a * numerator_ b).
Proof.
  intros Ca Cb Cm. unfold operator_gt.
  rewrite (operator_spaceship_exact a b Cm).
  destruct (operator_eq a b) eqn:E.
  - apply rational_eqb_eq in E. subst b. split; [discriminate | lia].
  - rewrite Z.gt_lt_iff, <- Z.compare_gt_iff. split; congruence.
Qed.

Lemma trichotomy a b :
  canonical a -> canonical b -> comparable T a b ->
  exactly_one (operator_lt T a b) (operator_eq a b = true) (operator_gt T a b).
Proof.
  intros Ca Cb Cm.
  pose proof (operator_lt_iff a b Ca Cb Cm) as L.
  pose proof (operator_gt_iff a b Ca Cb Cm) as G.
  unfold exactly_one. rewrite L, G.
  destruct (operator_eq a b) eqn:E.
  - apply rational_eqb_eq in E. subst b. right. left.
    repeat split; auto; lia.
  - assert (N : numerator_ a * denominator_ b <> denominator_ a * numerator_ b).
    { intros X. apply (cross_equal a b Ca Cb) in X. congruence. }
    destruct (Z.lt_total (numerator_ a * denominator_ b)
                         (denominator_ a * numerator_ b)) as [Lt|[Eq|Gt]].
    + left. repeat split; [lia | discriminate | lia].
    + contradiction.
    + right. right. repeat split; [lia | discriminate | lia].
Qed.

Lemma operator_lt_transitive a b c :
  canonical a -> canonical b -> canonical c ->
  comparable T a b -> comparable T b c -> comparable T a c ->
  operator_lt T a b -> operator_lt T b c -> operator_lt T a c.
Proof.
  intros Ca Cb Cc Mab Mbc Mac.
  rewrite !operator_lt_iff by trivial.
  apply canonical_iff in Ca, Cb, Cc.
  destruct Ca as [Pa _], Cb as [Pb _], Cc as [Pc _].
  intros L1 L2.
  apply Z.mul_lt_mono_pos_r with (denominator_ b); [exact Pb|].
  apply Z.lt_trans with (denominator_ a * numerator_ b * denominator_ c).
  - replace (numerator_ a * denominator_ c * denominator_ b)
      with (numerator_ a * denominator_ b * denominator_ c) by ring.
    apply Z.mul_lt_mono_pos_r; trivial.
  - replace (denominator_ a * numerator_ b * denominator_ c)
      with (denominator_ a * (numerator_ b * denominator_ c)) by ring.
    replace (denominator_ a * numerator_ c * denominator_ b)
      with (denominator_ a * (denominator_ b * numerator_ c)) by ring.
    apply Z.mul_lt_mono_pos_l; trivial.
Qed.

End OrderingFacts.

(** C7 (as amended).  The three-way comparison answers [equal] when the
    two pairs of fields are equal, and otherwise compares
    [numerator1 * denominator2] with [denominator1 * numerator2].  On
    canonical rationals whose cross products do not exceed the range of
    the base type this is a total order: exactly one of [a < b], [a == b],
    [a > b] holds, and [<] is transitive.  In particular 3/2 > 1/2 and
    -3/2 < -1/2. *)
Theorem three_way_comparison_total (T : integral) :
  (forall a b, operator_eq a b = true -> operator_spaceship T a b = Some Eq) /\
  (forall a b,
      operator_eq a b = false -> comparable T a b ->
      operator_spaceship T a b =
      Some (numerator_ a * denominator_ b ?= denominator_ a * numerator_ b)) /\
  (forall a b,
      canonical a -> canonical b -> comparable T a b ->
      exactly_one (operator_lt T a b) (operator_eq a b = true) (operator_gt T a b)) /\
  (forall a b c,
      canonical a -> canonical b -> canonical c ->
      comparable T a b -> comparable T b c -> comparable T a c ->
      operator_lt T a b -> operator_lt T b c -> operator_lt T a c) /\
  (operator_gt int_t (Rational 3 2) (Rational 1 2) /\
   operator_lt int_t (Rational (-3) 2) (Rational (-1) 2)).
Proof.
  repeat apply conj.
  - intros a b E. unfold operator_spaceship. now rewrite E.
  - intros a b E M. rewrite (operator_spaceship_exact T a b M). now rewrite E.
  - apply trichotomy.
  - apply operator_lt_transitive.
  - reflexivity.
  - reflexivity.
Qed.

Lemma three_way_comparison_total_witness :
  operator_lt int_t (Rational (-3) 2) (Rational 1 2).
Proof.
  apply (proj1 (proj2 (proj2 (proj2 (three_way_comparison_total int_t))))
           (Rational (-3) 2) (Rational (-1) 2) (Rational 1 2));
    try reflexivity; split; reflexivity.
Defined.

(** C7 (as stated) fails: on [unsigned int] the canonical rationals
    65536/1 and 65536/65537 are not equal, yet their cross products agree
    once the first has wrapped around, so that none of [a < b], [a == b],
    [a > b] holds. *)
Lemma three_way_comparison_counterexample :
  rational_ctor unsigned_int 65536 1 = Ok (Rational 65536 1) /\
  rational_ctor unsigned_int 65536 65537 = Ok (Rational 65536 65537) /\
  operator_spaceship unsigned_int (Rational 65536 1) (Rational 65536 65537) = Some Eq /\
  ~ exactly_one
      (operator_lt unsigned_int (Rational 65536 1) (Rational 65536 65537))
      (operator_eq (Rational 65536 1) (Rational 65536 65537) = true)
      (operator_gt unsigned_int (Rational 65536 1) (Rational 65536 65537)).
Proof.
  repeat split; try reflexivity.
  unfold exactly_one, operator_lt, operator_gt.
  change (operator_spaceship unsigned_int (Rational 65536 1) (Rational 65536 65537))
    with (Some Eq).
  change (operator_eq (Rational 65536 1) (Rational 65536 65537)) with false.
  intros [[H _]|[(_ & H & _)|(_ & _ & H)]]; discriminate.
Qed.

(** ** Division and multiplication *)

Section RoundTripFacts.
Variable T : integral.

Lemma operator_div_eq_returns this that :
  numerator_ that <> 0 -> denominator_ this <> 0 ->
  fits T (numerator_ this * denominator_ that) ->
  fits T (denominator_ this * numerator_ that) ->
  operator_div_eq T that this =
  Returns tt (reduce (numerator_ this * denominator_ that)
                     (denominator_ this * numerator_ that)).
Proof.
  destruct this as [a b], that as [c d]. simpl. intros NZ NZ' F1 F2.
  unfold operator_div_eq. simpl.
  destruct (Z.eqb_spec c 0) as [|_]; [contradiction|].
  run. unfold int_mul.
  rewrite (arith_exact T _ (proj1 F1)). cbn [numerator_ denominator_].
  rewrite (arith_exact T _ (proj1 F2)). cbn [numerator_ denominator_].
  apply (canonize_reduce T (Rational (a * d) (b * c))); simpl; trivial.
  right. nia.
Qed.

Lemma operator_times_eq_returns this that :
  denominator_ this <> 0 -> denominator_ that <> 0 ->
  fits T (numerator_ this * numerator_ that) ->
  fits T (denominator_ this * denominator_ that) ->
  operator_times_eq T that this =
  Returns tt (reduce (numerator_ this * numerator_ that)
                     (denominator_ this * denominator_ that)).
Proof.
  destruct this as [a b], that as [c d]. simpl. intros NZ NZ' F1 F2.
  unfold operator_times_eq. run. unfold int_mul.
  rewrite (arith_exact T _ (proj1 F1)). cbn [numerator_ denominator_].
  rewrite (arith_exact T _ (proj1 F2)). cbn [numerator_ denominator_].
  apply (canonize_reduce T (Rational (a * c) (b * d))); simpl; trivial.
  right. nia.
Qed.

End RoundTripFacts.

(** Dividing an object by itself in place does not give one: the
    denominator is multiplied by the numerator already updated. *)
Example operator_div_eq_self_example :
  operator_div_eq_self int_t (Rational 3 2) = Returns tt (Rational 1 2) /\
  operator_div_eq int_t (Rational 3 2) (Rational 3 2) = Returns tt (Rational 1 1).
Proof. split; reflexivity. Qed.

(** C8.  For canonical [a] and [b] with the numerator of [b] nonzero,
    dividing [a] by [b] and multiplying the quotient by [b] gives back
    [a], as long as the products of the two steps stay within the range of
    the base type. *)
Theorem divide_then_multiply (T : integral) (a b : rational) :
  canonical a -> canonical b -> numerator_ b <> 0 ->
  fits T (numerator_ a * denominator_ b) ->
  fits T (denominator_ a * numerator_ b) ->
  let q := reduce (numerator_ a * denominator_ b) (denominator_ a * numerator_ b) in
  fits T (numerator_ q * numerator_ b) ->
  fits T (denominator_ q * denominator_ b) ->
  exists quotient product,
    complete (operator_div_eq T b) a = Ok quotient /\
    complete (operator_times_eq T b) quotient = Ok product /\
    operator_eq product a = true.
Proof.
  intros Ca Cb NZ F1 F2 q F3 F4.
  pose proof (proj1 (canonical_iff _) Ca) as [Pa _].
  pose proof (proj1 (canonical_iff _) Cb) as [Pb _].
  assert (D : denominator_ a * numerator_ b <> 0) by nia.
  pose proof (reduce_canonical (numerator_ a * denominator_ b) _ D) as Cq.
  pose proof (reduce_value (numerator_ a * denominator_ b) _ D) as Vq.
  fold q in Cq, Vq.
  pose proof (proj1 (canonical_iff _) Cq) as [Pq _].
  exists q, a. repeat split.
  - unfold complete. rewrite operator_div_eq_returns; trivial. lia.
  - unfold complete. rewrite operator_times_eq_returns; trivial; try lia.
    f_equal. apply reduce_unique; trivial; [nia|].
    apply Z.mul_reg_r with (numerator_ b); [exact NZ|].
    transitivity (numerator_ a * denominator_ b * denominator_ q * numerator_ b);
      [ring|].
    rewrite <- Vq. ring.
  - now apply rational_eqb_eq.
Qed.

Lemma divide_then_multiply_witness :
  canonical (Rational 3 4) /\ canonical (Rational (-5) 6) /\
  exists quotient product,
    complete (operator_div_eq int_t (Rational (-5) 6)) (Rational 3 4) = Ok quotient /\
    complete (operator_times_eq int_t (Rational (-5) 6)) quotient = Ok product /\
    operator_eq product (Rational 3 4) = true.
Proof.
  assert (Ca : canonical (Rational 3 4)) by reflexivity.
  assert (Cb : canonical (Rational (-5) 6)) by reflexivity.
  refine (conj Ca (conj Cb _)).
  apply (divide_then_multiply int_t (Rational 3 4) (Rational (-5) 6) Ca Cb);
    try (split; reflexivity).
  simpl. lia.
Defined.

(** ** Steps by whole numbers *)

Section StepFacts.
Variable T : integral.

Lemma operator_plus_eq_int_returns a b c :
  representable T (c * b) = true -> representable T (a + c * b) = true ->
  operator_plus_eq_int T c (Rational a b) = Returns tt (Rational (a + c * b) b).
Proof.
  intros P S. unfold operator_plus_eq_int. run. unfold int_mul, int_add.
  rewrite (arith_exact T _ P). cbn [numerator_ denominator_].
  now rewrite (arith_exact T _ S).
Qed.

Lemma operator_minus_eq_int_returns a b c :
  representable T (c * b) = true -> representable T (a - c * b) = true ->
  operator_minus_eq_int T c (Rational a b) = Returns tt (Rational (a - c * b) b).
Proof.
  intros P S. unfold operator_minus_eq_int. run. unfold int_mul, int_sub.
  rewrite (arith_exact T _ P). cbn [numerator_ denominator_].
  now rewrite (arith_exact T _ S).
Qed.

Lemma operator_pre_inc_returns a b :
  representable T (a + b) = true ->
  operator_pre_inc T (Rational a b) = Returns tt (Rational (a + b) b).
Proof.
  intros S. unfold operator_pre_inc. run. unfold int_add.
  now rewrite (arith_exact T _ S).
Qed.

Lemma operator_pre_dec_returns a b :
  representable T (a - b) = true ->
  operator_pre_dec T (Rational a b) = Returns tt (Rational (a - b) b).
Proof.
  intros S. unfold operator_pre_dec. run. unfold int_sub.
  now rewrite (arith_exact T _ S).
Qed.

Lemma canonical_shift_sub n d c :
  canonical (Rational n d) -> canonical (Rational (n - c * d) d).
Proof.
  intros C. replace (n - c * d) with (n + (- c) * d) by ring.
  now apply canonical_shift.
Qed.

End StepFacts.

(** C10 (as amended).  On a canonical rational [a/b], the compound
    assignments [+= c] and [-= c] of an integer and the increment and
    decrement operators, pre and post, add to or subtract from the
    numerator a multiple of the denominator, leave the denominator as it
    is, and leave the object in canonical form although they do not run
    [canonize], as long as the product and the new numerator stay
    within the range of the base type. *)
Theorem integer_steps_keep_canonical (T : integral) (a b c : Z) :
  canonical (Rational a b) ->
  (representable T (c * b) = true -> representable T (a + c * b) = true ->
   operator_plus_eq_int T c (Rational a b) = Returns tt (Rational (a + c * b) b) /\
   canonical (Rational (a + c * b) b)) /\
  (representable T (c * b) = true -> representable T (a - c * b) = true ->
   operator_minus_eq_int T c (Rational a b) = Returns tt (Rational (a - c * b) b) /\
   canonical (Rational (a - c * b) b)) /\
  (representable T (a + b) = true ->
   operator_pre_inc T (Rational a b) = Returns tt (Rational (a + 1 * b) b) /\
   operator_post_inc T (Rational a b) = Returns (Rational a b) (Rational (a + 1 * b) b) /\
   canonical (Rational (a + 1 * b) b)) /\
  (representable T (a - b) = true ->
   operator_pre_dec T (Rational a b) = Returns tt (Rational (a - 1 * b) b) /\
   operator_post_dec T (Rational a b) = Returns (Rational a b) (Rational (a - 1 * b) b) /\
   canonical (Rational (a - 1 * b) b)).
Proof.
  intros C. repeat apply conj.
  - intros P S. split; [now apply operator_plus_eq_int_returns|].
    now apply canonical_shift.
  - intros P S. split; [now apply operator_minus_eq_int_returns|].
    now apply canonical_shift_sub.
  - intros S. rewrite Z.mul_1_l. repeat split.
    + now apply operator_pre_inc_returns.
    + unfold operator_post_inc. run.
      now rewrite operator_pre_inc_returns.
    + replace (a + b) with (a + 1 * b) by ring. now apply canonical_shift.
  - intros S. rewrite Z.mul_1_l. repeat split.
    + now apply operator_pre_dec_returns.
    + unfold operator_post_dec. run.
      now rewrite operator_pre_dec_returns.
    + replace (a - b) with (a - 1 * b) by ring. now apply canonical_shift_sub.
Qed.

Lemma integer_steps_keep_canonical_witness :
  canonical (Rational 1 3) /\
  operator_plus_eq_int int_t 5 (Rational 1 3) = Returns tt (Rational 16 3) /\
  canonical (Rational 16 3).
Proof.
  assert (C : canonical (Rational 1 3)) by reflexivity.
  refine (conj C _).
  apply (proj1 (integer_steps_keep_canonical int_t 1 3 5 C)); reflexivity.
Defined.

(** C10 (as stated) fails: on [unsigned int], adding 1431655766 to the
    canonical 1/3 wraps the numerator around to 3 and leaves 3/3, and
    incrementing the canonical 4294967293/3 leaves 0/3. *)
Lemma integer_steps_counterexample :
  rational_ctor unsigned_int 1 3 = Ok (Rational 1 3) /\
  operator_plus_eq_int unsigned_int 1431655766 (Rational 1 3)
    = Returns tt (Rational 3 3) /\
  ~ canonical (Rational 3 3) /\
  rational_ctor unsigned_int 4294967293 3 = Ok (Rational 4294967293 3) /\
  operator_pre_inc unsigned_int (Rational 4294967293 3) = Returns tt (Rational 0 3) /\
  ~ canonical (Rational 0 3).
Proof.
  repeat split; try reflexivity; discriminate.
Qed.

(** ** Conversion from floating point and back *)

(** C2 (as amended).  For a floating-point type no wider than [double],
    and for every valid finite value that is positive zero or that
    [assign] scales directly (the exponent of its mantissa is above
    [1 - max_exponent], so the scaling is not split) with the integers of
    the conversion within the range of the base type, the construction of
    a rational from the value returns, and evaluating the rational in the
    same floating-point type gives back the value, bit for bit. *)
Theorem float_round_trip (T : integral) (F : floating_point) (value : spec_float) :
  format_ok F ->
  valid_binary (digits F) (max_exponent F) value = true ->
  directly_scaled T F value ->
  exists r,
    rational_ctor_float T F value = Ok r /\ evaluate F r = value.
Proof.
  intros Format Valid Direct.
  destruct value as [s| | |s m e]; try contradiction.
  - destruct Direct as [-> Rp].
    destruct (rational_ctor_float_returns_zero T F Format Rp) as [r B].
    exists r. split; [exact B|].
    now apply (float_round_trip_zero T F Format).
  - destruct (rational_ctor_float_returns_finite T F Format s m e Valid Direct)
      as [r B].
    exists r. split; [exact B|].
    destruct Direct as [Above Fit].
    apply (float_round_trip_finite T F Format s m e); trivial.
    intros Pe. destruct (Z.leb_spec 0 e); [|lia].
    destruct Fit as [_ A]. rewrite Z.abs_mul in A.
    destruct (cond_Zopp_sign s m) as (Abs & _).
    rewrite Abs, (Z.abs_eq (2 ^ e)) in A; trivial.
    apply Z.pow_nonneg. lia.
Qed.

Lemma float_round_trip_witness :
  format_ok double_t /\
  valid_binary (digits double_t) (max_exponent double_t)
    (S754_finite false 6755399441055744 (-53)) = true /\
  directly_scaled long_long double_t (S754_finite false 6755399441055744 (-53)) /\
  exists r,
    rational_ctor_float long_long double_t (S754_finite false 6755399441055744 (-53))
    = Ok r /\
    evaluate double_t r = S754_finite false 6755399441055744 (-53).
Proof.
  assert (Fm : format_ok double_t) by (unfold format_ok; simpl; lia).
  assert (V : valid_binary (digits double_t) (max_exponent double_t)
                (S754_finite false 6755399441055744 (-53)) = true)
    by reflexivity.
  assert (D : directly_scaled long_long double_t
                (S754_finite false 6755399441055744 (-53)))
    by (vm_compute; repeat split; reflexivity).
  exact (conj Fm (conj V (conj D
    (float_round_trip long_long double_t _ Fm V D)))).
Defined.

(** C2 (as stated) fails.  On [unsigned int] the [float] 2^40 becomes the
    rational 0/1, since the scaled numerator wraps around, and evaluates
    to zero.  On [unsigned __int128] the [float] (2^23 + 1) * 2^-128, which
    takes the split of the scaling, loses its last bit to the integer
    division and comes back as 2^23 * 2^-128. *)
Lemma float_round_trip_counterexample :
  (valid_binary (digits float_t) (max_exponent float_t)
     (S754_finite false 8388608 17) = true /\
   rational_ctor_float unsigned_int float_t (S754_finite false 8388608 17)
     = Ok (Rational 0 1) /\
   evaluate float_t (Rational 0 1) = S754_zero false /\
   S754_zero false <> S754_finite false 8388608 17) /\
  (valid_binary (digits float_t) (max_exponent float_t)
     (S754_finite false 8388609 (-128)) = true /\
   rational_ctor_float unsigned_int128 float_t (S754_finite false 8388609 (-128))
     = Ok (Rational 1 (2 ^ 105)) /\
   evaluate float_t (Rational 1 (2 ^ 105)) = S754_finite false 8388608 (-128) /\
   S754_finite false 8388608 (-128) <> S754_finite false 8388609 (-128)).
Proof.
  repeat split; try (vm_compute; reflexivity); discriminate.
Qed.

(** ** The power function *)

(** C9 (as amended).  For a canonical rational and a power [p] with
    [0 <= p < 2^53], when the [p]-th powers of the numerator and of the
    denominator are below [2^53] in magnitude and within the range of the
    base type, in magnitude too, [pow] returns the rational whose
    numerator and denominator are these powers. *)
Theorem pow_exact_within_double (T : integral) (value : rational) (power : Z) :
  canonical value ->
  0 <= power < 2 ^ 53 ->
  Z.abs (numerator_ value) ^ power < 2 ^ 53 ->
  denominator_ value ^ power < 2 ^ 53 ->
  fits T (numerator_ value ^ power) ->
  fits T (denominator_ value ^ power) ->
  pow T value power
  = Ok (Rational (numerator_ value ^ power) (denominator_ value ^ power)).
Proof.
  apply pow_returns.
Qed.

Lemma pow_exact_within_double_witness :
  canonical (Rational (-2) 3) /\
  pow int_t (Rational (-2) 3) 5 = Ok (Rational (-32) 243).
Proof.
  assert (C : canonical (Rational (-2) 3)) by reflexivity.
  refine (conj C _).
  apply (pow_exact_within_double int_t (Rational (-2) 3) 5 C);
    simpl; try lia; split; reflexivity.
Defined.

(** C9 (as stated) fails.  On [long long], [pow(3/1, 39)] returns
    4052555153018976256/1 and not 3^39 = 4052555153018976267, which no
    [double] holds; and for the negative power -1 the reciprocal powers are
    truncated to integers: [pow(2/1, -1)] is 0/1 and [pow(1/2, -1)] fails
    with the domain error of the zero denominator. *)
Lemma pow_counterexample :
  (rational_ctor long_long 3 1 = Ok (Rational 3 1) /\
   pow long_long (Rational 3 1) 39 = Ok (Rational 4052555153018976256 1) /\
   3 ^ 39 = 4052555153018976267) /\
  (rational_ctor int_t 2 1 = Ok (Rational 2 1) /\
   pow int_t (Rational 2 1) (-1) = Ok (Rational 0 1)) /\
  (rational_ctor int_t 1 2 = Ok (Rational 1 2) /\
   pow int_t (Rational 1 2) (-1) = DomainError "Denominator can not be zero.").
Proof.
  repeat split; vm_compute; reflexivity.
Qed.

(** * Further properties of the header *)

(** ** Canonization and construction *)

Section ReductionFacts.
Variable T : integral.

Lemma reduce_coprime n d :
  Z.gcd n d = 1 -> 0 <= d -> reduce n d = Rational n d.
Proof.
  intros G P. unfold reduce. rewrite G, !Z.div_1_r.
  destruct (Z.ltb_spec d 0); [lia|reflexivity].
Qed.

(** What [reduce] yields: coprime fields, a denominator that is not
    negative, and fields no larger than the ones it was given. *)
Lemma reduce_shape n d :
  n <> 0 \/ d <> 0 ->
  let r := reduce n d in
  Z.gcd (numerator_ r) (denominator_ r) = 1 /\ 0 <= denominator_ r /\
  Z.abs (numerator_ r) <= Z.abs n /\ Z.abs (denominator_ r) <= Z.abs d.
Proof.
  intros NZ. pose proof (gcd_positive n d NZ) as G.
  destruct (gcd_cofactors n d NZ) as (k1 & k2 & E1 & E2 & C).
  cbv zeta. rewrite (reduce_cofactors n d NZ k1 k2 E1 E2).
  destruct (Z.ltb_spec k2 0); cbn [numerator_ denominator_];
    rewrite ?Z.gcd_opp_l, ?Z.gcd_opp_r; repeat split; trivial; nia.
Qed.

Lemma fits_smaller z w :
  fits T z -> Z.abs w <= Z.abs z ->
  (is_signed T = false -> 0 <= w) -> fits T w.
Proof.
  intros [R A] L U.
  assert (Aw : representable T (Z.abs w) = true)
    by (apply (representable_between T (Z.abs z)); trivial; lia).
  split; trivial.
  destruct (is_signed T) eqn:Sg.
  - apply representable_iff. apply representable_iff in A, Aw.
    revert A Aw. unfold min_value, max_value. rewrite Sg. lia.
  - specialize (U eq_refl). now rewrite Z.abs_eq in Aw.
Qed.

Lemma reduce_fits n d :
  fits T n -> fits T d -> n <> 0 \/ d <> 0 ->
  fits T (numerator_ (reduce n d)) /\ fits T (denominator_ (reduce n d)).
Proof.
  intros Fn Fd NZ.
  destruct (reduce_shape n d NZ) as (_ & P & Ln & Ld).
  split.
  - apply (fits_smaller n); trivial. intros U.
    pose proof (proj1 (unsigned_range T _ U) (proj1 Fn)) as Rn.
    pose proof (proj1 (unsigned_range T _ U) (proj1 Fd)) as Rd.
    pose proof (gcd_positive n d NZ) as G.
    destruct (gcd_cofactors n d NZ) as (k1 & k2 & E1 & E2 & C).
    rewrite (reduce_cofactors n d NZ k1 k2 E1 E2).
    destruct (Z.ltb_spec k2 0); cbn [numerator_]; nia.
  - apply (fits_smaller d); trivial.
Qed.

End ReductionFacts.

(** X1.  [canonize] is idempotent: on the object it has just left, it
    returns and changes nothing. *)
Theorem canonize_idempotent (T : integral) (s s1 : rational) :
  well_typed T s ->
  canonize T s = Returns tt s1 ->
  canonize T s1 = Returns tt s1.
Proof.
  intros W C.
  assert (F : fits T (numerator_ s) /\ fits T (denominator_ s)).
  { destruct s as [n d], W as [Rn Rd]. simpl in *.
    revert C. unfold canonize. run. unfold std_gcd.
    destruct (representable T (Z.abs n)) eqn:An; [|discriminate].
    destruct (representable T (Z.abs d)) eqn:Ad; [|discriminate].
    intros _. repeat split; trivial. }
  destruct F as [Fn Fd].
  destruct (canonize_returns T s s1 W C) as [NZ ->].
  destruct (reduce_shape (numerator_ s) (denominator_ s) NZ) as (G & P & _).
  destruct (reduce_fits T _ _ Fn Fd NZ) as [Fn' Fd'].
  rewrite canonize_reduce; trivial.
  - rewrite reduce_coprime; trivial.
    now destruct (reduce (numerator_ s) (denominator_ s)).
  - destruct (Z.eq_dec (numerator_ (reduce (numerator_ s) (denominator_ s))) 0)
      as [E|]; [|now left].
    right. intros E'. rewrite E, E' in G. discriminate.
Qed.

Lemma canonize_idempotent_witness :
  well_typed int_t (Rational 6 (-4)) /\
  canonize int_t (Rational 6 (-4)) = Returns tt (Rational (-3) 2) /\
  canonize int_t (Rational (-3) 2) = Returns tt (Rational (-3) 2).
Proof.
  assert (W : well_typed int_t (Rational 6 (-4))) by (split; reflexivity).
  assert (C : canonize int_t (Rational 6 (-4)) = Returns tt (Rational (-3) 2))
    by reflexivity.
  exact (conj W (conj C (canonize_idempotent int_t _ _ W C))).
Defined.

(** X2.  Two fractions with nonzero denominators construct the same
    rational exactly when they are equal as fractions, that is, when
    their cross products agree. *)
Theorem equal_fractions_construct_equal (T : integral) (n d n' d' : Z) :
  fits T n -> fits T d -> fits T n' -> fits T d' ->
  d <> 0 -> d' <> 0 ->
  (rational_ctor T n d = rational_ctor T n' d' <-> n * d' = n' * d).
Proof.
  intros Fn Fd Fn' Fd' D D'.
  rewrite !rational_ctor_reduce by trivial.
  pose proof (reduce_value n d D) as V.
  pose proof (reduce_value n' d' D') as V'.
  pose proof (proj1 (canonical_iff _) (reduce_canonical n d D)) as [P _].
  pose proof (proj1 (canonical_iff _) (reduce_canonical n' d' D')) as [P' _].
  split.
  - intros [= E]. rewrite <- E in V', P'.
    apply Z.mul_reg_r with (denominator_ (reduce n d)); [lia|].
    transitivity (numerator_ (reduce n d) * d * d'); [rewrite V; ring|].
    replace (numerator_ (reduce n d) * d * d')
      with (numerator_ (reduce n d) * d' * d) by ring.
    rewrite V'. ring.
  - intros E. f_equal. apply reduce_unique; trivial.
    + now apply reduce_canonical.
    + apply Z.mul_reg_r with d'; [exact D'|].
      replace (numerator_ (reduce n' d') * d * d')
        with (numerator_ (reduce n' d') * d' * d) by ring.
      rewrite V'.
      replace (n * denominator_ (reduce n' d') * d')
        with (n * d' * denominator_ (reduce n' d')) by ring.
      rewrite E. ring.
Qed.

Lemma equal_fractions_construct_equal_witness :
  rational_ctor int_t 2 4 = rational_ctor int_t (-3) (-6) <-> 2 * -6 = -3 * 4.
Proof.
  apply (equal_fractions_construct_equal int_t 2 4 (-3) (-6));
    solve [split; reflexivity | discriminate].
Defined.

(** X3.  A canonical rational is rebuilt from what its accessors return:
    [rational(r.numerator(), r.denominator())] is [r]. *)
Theorem accessors_rebuild (T : integral) (r : rational) :
  canonical r ->
  fits T (numerator r) -> representable T (denominator r) = true ->
  rational_ctor T (numerator r) (denominator r) = Ok r.
Proof.
  unfold numerator, denominator. intros C Fn Rd.
  pose proof (proj1 (canonical_iff _) C) as [P _].
  rewrite rational_ctor_reduce; trivial; try lia.
  - now rewrite reduce_canonical_id.
  - split; trivial. now rewrite Z.abs_eq by lia.
Qed.

Lemma accessors_rebuild_witness :
  canonical (Rational (-3) 2) /\
  rational_ctor int_t (numerator (Rational (-3) 2)) (denominator (Rational (-3) 2))
  = Ok (Rational (-3) 2).
Proof.
  refine (conj eq_refl _).
  apply (accessors_rebuild int_t (Rational (-3) 2));
    solve [reflexivity | split; reflexivity].
Defined.

(** ** Algebra of the compound operators *)

(** X4.  Addition commutes, overflow included: [a += b] and [b += a]
    leave the same object, or are both undefined. *)
Theorem operator_plus_eq_commutes (T : integral) (a b : rational) :
  complete (operator_plus_eq T b) a = complete (operator_plus_eq T a) b.
Proof.
  destruct a as [n d], b as [n' d'].
  unfold operator_plus_eq. run. unfold int_mul, int_add.
  rewrite (Z.mul_comm n' d).
  destruct (arith T (n * d')) as [l|] eqn:El, (arith T (d * n')) as [r|] eqn:Er;
    cbn [numerator_ denominator_];
    rewrite ?(Z.mul_comm d' n), ?El, ?Er; cbn [numerator_ denominator_];
    trivial.
  rewrite (Z.add_comm r l).
  destruct (arith T (l + r)); cbn [numerator_ denominator_]; trivial.
  rewrite (Z.mul_comm d' d). now destruct (arith T (d * d')).
Qed.

(** X5.  Multiplication commutes, overflow included. *)
Theorem operator_times_eq_commutes (T : integral) (a b : rational) :
  complete (operator_times_eq T b) a = complete (operator_times_eq T a) b.
Proof.
  destruct a as [n d], b as [n' d'].
  unfold operator_times_eq. run. unfold int_mul.
  rewrite (Z.mul_comm n' n).
  destruct (arith T (n * n')); cbn [numerator_ denominator_]; trivial.
  rewrite (Z.mul_comm d' d). now destruct (arith T (d * d')).
Qed.

(** X6.  Exchanging the operands of the three-way comparison reverses
    its answer, and it is undefined one way exactly when it is the other
    way. *)
Theorem operator_spaceship_reverses (T : integral) (a b : rational) :
  operator_spaceship T b a = option_map CompOpp (operator_spaceship T a b).
Proof.
  destruct a as [n d], b as [n' d'].
  unfold operator_spaceship, operator_eq, rational_eqb, int_mul.
  cbn [numerator_ denominator_].
  rewrite (Z.eqb_sym n' n), (Z.eqb_sym d' d).
  destruct ((n =? n') && (d =? d')); [reflexivity|].
  rewrite (Z.mul_comm n' d), (Z.mul_comm d' n).
  destruct (arith T (n * d')) as [l|], (arith T (d * n')) as [r|]; trivial.
  simpl. now rewrite Z.compare_antisym.
Qed.

Section CompoundFacts.
Variable T : integral.

Lemma fits_0 : fits T 0.
Proof. split; apply representable_0. Qed.

Lemma fits_nonneg z : representable T z = true -> 0 <= z -> fits T z.
Proof. intros R P. split; trivial. now rewrite Z.abs_eq. Qed.

Lemma fits_opp z : fits T z -> representable T (- z) = true -> fits T (- z).
Proof. intros [_ A] R. split; trivial. now rewrite Z.abs_opp. Qed.

Lemma fits_abs z : fits T z -> fits T (Z.abs z).
Proof. intros [_ A]. split; trivial. now rewrite (Z.abs_eq (Z.abs z)) by lia. Qed.

(** Only a signed type has negative values. *)
Lemma negative_signed z : representable T z = true -> z < 0 -> is_signed T = true.
Proof.
  intros R N. destruct (is_signed T) eqn:Sg; trivial.
  apply (unsigned_range T _ Sg) in R. lia.
Qed.

Lemma operator_minus_eq_returns this that :
  fits T (numerator_ this * denominator_ that) ->
  fits T (denominator_ this * numerator_ that) ->
  fits T (numerator_ this * denominator_ that - denominator_ this * numerator_ that) ->
  fits T (denominator_ this * denominator_ that) ->
  denominator_ this <> 0 -> denominator_ that <> 0 ->
  operator_minus_eq T that this =
  Returns tt (reduce (numerator_ this * denominator_ that
                      - denominator_ this * numerator_ that)
                     (denominator_ this * denominator_ that)).
Proof.
  destruct this as [a b], that as [c d]. simpl.
  intros F1 F2 F3 F4 NZ1 NZ2.
  unfold operator_minus_eq. run. unfold int_mul, int_sub.
  rewrite (arith_exact T _ (proj1 F1)). cbn [numerator_ denominator_].
  rewrite (arith_exact T _ (proj1 F2)). cbn [numerator_ denominator_].
  rewrite (arith_exact T _ (proj1 F3)). cbn [numerator_ denominator_].
  rewrite (arith_exact T _ (proj1 F4)). cbn [numerator_ denominator_].
  apply (canonize_reduce T (Rational (a * d - b * c) (b * d))); simpl; trivial.
  right. nia.
Qed.

End CompoundFacts.

(** X7.  Zero and one are neutral: on a canonical rational, [+= 0/1],
    [-= 0/1], [*= 1/1] and [/= 1/1] return and leave the object as it
    was. *)
Theorem neutral_elements (T : integral) (a : rational) :
  canonical a ->
  fits T (numerator_ a) -> representable T (denominator_ a) = true ->
  complete (operator_plus_eq T (Rational 0 1)) a = Ok a /\
  complete (operator_minus_eq T (Rational 0 1)) a = Ok a /\
  complete (operator_times_eq T (Rational 1 1)) a = Ok a /\
  complete (operator_div_eq T (Rational 1 1)) a = Ok a.
Proof.
  intros C Fn Rd.
  pose proof (proj1 (canonical_iff _) C) as [P _].
  assert (Fd : fits T (denominator_ a)) by (apply fits_nonneg; trivial; lia).
  pose proof (fits_0 T) as F0.
  pose proof (reduce_canonical_id a C) as Id.
  unfold complete. repeat split.
  - rewrite operator_plus_eq_returns; cbn [numerator_ denominator_];
      rewrite ?Z.mul_1_r, ?Z.mul_0_r, ?Z.add_0_r; trivial; try lia.
    now rewrite Id.
  - rewrite operator_minus_eq_returns; cbn [numerator_ denominator_];
      rewrite ?Z.mul_1_r, ?Z.mul_0_r, ?Z.sub_0_r; trivial; try lia.
    now rewrite Id.
  - rewrite operator_times_eq_returns; cbn [numerator_ denominator_];
      rewrite ?Z.mul_1_r; trivial; try lia.
    now rewrite Id.
  - rewrite operator_div_eq_returns; cbn [numerator_ denominator_];
      rewrite ?Z.mul_1_r; trivial; try lia.
    now rewrite Id.
Qed.

Lemma neutral_elements_witness :
  canonical (Rational (-3) 2) /\
  complete (operator_plus_eq int_t (Rational 0 1)) (Rational (-3) 2) = Ok (Rational (-3) 2) /\
  complete (operator_minus_eq int_t (Rational 0 1)) (Rational (-3) 2) = Ok (Rational (-3) 2) /\
  complete (operator_times_eq int_t (Rational 1 1)) (Rational (-3) 2) = Ok (Rational (-3) 2) /\
  complete (operator_div_eq int_t (Rational 1 1)) (Rational (-3) 2) = Ok (Rational (-3) 2).
Proof.
  refine (conj eq_refl _).
  apply (neutral_elements int_t (Rational (-3) 2));
    solve [reflexivity | split; reflexivity].
Defined.



(** X9.  The unary minus of a canonical rational negates the numerator
    and keeps the denominator, and negating twice gives the rational
    back, when the negated numerator is a value of the base type. *)
Theorem operator_minus_involutive (T : integral) (a : rational) :
  canonical a ->
  fits T (numerator_ a) -> representable T (- numerator_ a) = true ->
  representable T (denominator_ a) = true ->
  operator_minus T a = Ok (Rational (- numerator_ a) (denominator_ a)) /\
  outcome_bind (operator_minus T a) (operator_minus T) = Ok a.
Proof.
  destruct a as [n d]. cbn [numerator_ denominator_]. intros C Fn Rn Rd.
  pose proof (proj1 (canonical_iff _) C) as [P G]. simpl in P, G.
  assert (Fd : fits T d) by (apply fits_nonneg; trivial; lia).
  assert (Fn' : fits T (- n)) by now apply fits_opp.
  assert (C' : canonical (Rational (- n) d))
    by (apply canonical_iff; simpl; now rewrite Z.gcd_opp_l).
  assert (M : operator_minus T (Rational n d) = Ok (Rational (- n) d)).
  { unfold operator_minus, int_neg. cbn [numerator_ denominator_].
    rewrite (arith_exact T _ Rn), rational_ctor_reduce by (trivial; lia).
    f_equal. exact (reduce_canonical_id (Rational (- n) d) C'). }
  split; [exact M|]. rewrite M. cbn [outcome_bind].
  unfold operator_minus, int_neg. cbn [numerator_ denominator_].
  rewrite Z.opp_involutive, (arith_exact T _ (proj1 Fn)).
  rewrite rational_ctor_reduce by (trivial; lia).
  f_equal. exact (reduce_canonical_id (Rational n d) C).
Qed.

Lemma operator_minus_involutive_witness :
  canonical (Rational 3 2) /\
  operator_minus int_t (Rational 3 2) = Ok (Rational (- 3) 2) /\
  outcome_bind (operator_minus int_t (Rational 3 2)) (operator_minus int_t)
  = Ok (Rational 3 2).
Proof.
  refine (conj eq_refl _).
  apply (operator_minus_involutive int_t (Rational 3 2));
    solve [reflexivity | split; reflexivity].
Defined.

(** X10.  Inverting twice gives a canonical rational with a nonzero
    numerator back. *)
Theorem operator_tilde_involutive (T : integral) (a : rational) :
  canonical a -> numerator_ a <> 0 ->
  fits T (numerator_ a) -> representable T (denominator_ a) = true ->
  outcome_bind (operator_tilde T a) (operator_tilde T) = Ok a.
Proof.
  destruct a as [n d]. cbn [numerator_ denominator_]. intros C NZ Fn Rd.
  pose proof (proj1 (canonical_iff _) C) as [P G]. simpl in P, G.
  assert (Fd : fits T d) by (apply fits_nonneg; trivial; lia).
  unfold operator_tilde at 1. cbn [numerator_ denominator_].
  rewrite rational_ctor_reduce, reduce_swap by trivial.
  destruct (Z.ltb_spec n 0) as [Neg|Pos]; cbn [outcome_bind];
    unfold operator_tilde; cbn [numerator_ denominator_].
  - assert (Rd' : representable T (- d) = true).
    { apply fits_neg; trivial. apply (negative_signed T n); trivial. apply Fn. }
    assert (Rn' : representable T (- n) = true).
    { destruct Fn as [_ A]. now rewrite Z.abs_neq in A by lia. }
    rewrite rational_ctor_reduce; try lia; try (apply fits_opp; trivial).
    f_equal. apply reduce_unique; trivial; simpl; lia.
  - rewrite rational_ctor_reduce; trivial; try lia.
    f_equal. exact (reduce_canonical_id (Rational n d) C).
Qed.

Lemma operator_tilde_involutive_witness :
  canonical (Rational (-3) 2) /\
  outcome_bind (operator_tilde int_t (Rational (-3) 2)) (operator_tilde int_t)
  = Ok (Rational (-3) 2).
Proof.
  refine (conj eq_refl _).
  apply (operator_tilde_involutive int_t (Rational (-3) 2));
    solve [reflexivity | discriminate | split; reflexivity].
Defined.

(** X11.  A canonical rational with a nonzero numerator times its
    inverse is 1/1, when the product of its fields does not exceed the
    range of the base type. *)
Theorem times_inverse_is_one (T : integral) (a : rational) :
  canonical a -> numerator_ a <> 0 ->
  fits T (numerator_ a * denominator_ a) ->
  exists inverse,
    operator_tilde T a = Ok inverse /\
    complete (operator_times_eq T inverse) a = Ok (Rational 1 1).
Proof.
  destruct a as [n d]. cbn [numerator_ denominator_]. intros C NZ F.
  pose proof (proj1 (canonical_iff _) C) as [P G]. simpl in P, G.
  assert (Fn : fits T n) by (apply (fits_cofactor T d); trivial; now rewrite Z.mul_comm).
  assert (Fd : fits T d).
  { apply (fits_cofactor T (Z.abs n)); [lia|].
    assert (E : Z.abs n * d = Z.abs (n * d))
      by (rewrite Z.abs_mul, (Z.abs_eq d); lia).
    rewrite E. apply fits_abs, F. }
  assert (One : forall k, k <> 0 -> reduce k k = Rational 1 1).
  { intros k K. apply reduce_unique; [exact K|reflexivity|cbn [numerator_ denominator_]; lia]. }
  unfold operator_tilde. cbn [numerator_ denominator_].
  rewrite rational_ctor_reduce, reduce_swap by trivial.
  destruct (Z.ltb_spec n 0) as [Neg|Pos]; eexists; (split; [reflexivity|]);
    unfold complete.
  - assert (F' : fits T (n * - d)).
    { rewrite Z.mul_opp_r. apply fits_opp; trivial.
      destruct F as [_ A]. now rewrite Z.abs_neq in A by nia. }
    rewrite operator_times_eq_returns; cbn [numerator_ denominator_];
      trivial; try lia.
    + replace (d * - n) with (n * - d) by ring. rewrite One; trivial. nia.
    + now replace (d * - n) with (n * - d) by ring.
  - rewrite operator_times_eq_returns; cbn [numerator_ denominator_];
      trivial; try lia.
    + replace (d * n) with (n * d) by ring. rewrite One; trivial. nia.
    + now replace (d * n) with (n * d) by ring.
Qed.

Lemma times_inverse_is_one_witness :
  canonical (Rational (-3) 2) /\
  exists inverse,
    operator_tilde int_t (Rational (-3) 2) = Ok inverse /\
    complete (operator_times_eq int_t inverse) (Rational (-3) 2) = Ok (Rational 1 1).
Proof.
  refine (conj eq_refl _).
  apply (times_inverse_is_one int_t (Rational (-3) 2));
    solve [reflexivity | discriminate | split; reflexivity].
Defined.

(** ** The operators that take an integer *)

(** X12.  Multiplying and dividing by an integer [c] in place is
    multiplying and dividing by the rational [c/1]: the two forms end the
    same way on every object of the base type, overflow and the division
    by zero included. *)
Theorem integer_scaling_agrees (T : integral) (this : rational) (c : Z) :
  well_typed T this ->
  operator_times_eq_int T c this = operator_times_eq T (Rational c 1) this /\
  operator_div_eq_int T c this = operator_div_eq T (Rational c 1) this.
Proof.
  destruct this as [n d]. intros [Rn Rd]. simpl in Rn, Rd. split.
  - unfold operator_times_eq_int, operator_times_eq. run. unfold int_mul.
    destruct (arith T (n * c)) as [v|]; cbn [numerator_ denominator_]; trivial.
    now rewrite Z.mul_1_r, (arith_exact T _ Rd).
  - unfold operator_div_eq_int, operator_div_eq. cbn [numerator_ denominator_].
    destruct (c =? 0); trivial.
    run. unfold int_mul.
    now rewrite Z.mul_1_r, (arith_exact T _ Rn).
Qed.

Lemma integer_scaling_agrees_witness :
  well_typed unsigned_int (Rational 1 65536) /\
  operator_times_eq_int unsigned_int 65536 (Rational 1 65536)
  = operator_times_eq unsigned_int (Rational 65536 1) (Rational 1 65536) /\
  operator_div_eq_int unsigned_int 65536 (Rational 1 65536)
  = operator_div_eq unsigned_int (Rational 65536 1) (Rational 1 65536).
Proof.
  assert (W : well_typed unsigned_int (Rational 1 65536)) by (split; reflexivity).
  exact (conj W (integer_scaling_agrees unsigned_int (Rational 1 65536) 65536 W)).
Defined.

(** X13.  Adding an integer [c] to a canonical rational in place is
    adding the rational [c/1], and likewise for subtracting, although
    the integer forms do not canonize: when the product and the new
    numerator stay within the range of the base type, both forms leave
    the same object. *)
Theorem integer_addition_agrees (T : integral) (this : rational) (c : Z) :
  canonical this ->
  fits T (numerator_ this) -> representable T (denominator_ this) = true ->
  fits T (c * denominator_ this) ->
  (fits T (numerator_ this + c * denominator_ this) ->
   operator_plus_eq_int T c this = operator_plus_eq T (Rational c 1) this) /\
  (fits T (numerator_ this - c * denominator_ this) ->
   operator_minus_eq_int T c this = operator_minus_eq T (Rational c 1) this).
Proof.
  destruct this as [n d]. cbn [numerator_ denominator_].
  intros C Fn Rd Fp.
  pose proof (proj1 (canonical_iff _) C) as [P G]. simpl in P, G.
  assert (Fd : fits T d) by (apply fits_nonneg; trivial; lia).
  split.
  - intros Fs.
    rewrite operator_plus_eq_int_returns by apply Fp || apply Fs.
    rewrite operator_plus_eq_returns; cbn [numerator_ denominator_];
      rewrite ?Z.mul_1_r, ?(Z.mul_comm d c); trivial; try lia.
    f_equal. symmetry.
    exact (reduce_canonical_id (Rational (n + c * d) d) (canonical_shift n d c C)).
  - intros Fm.
    rewrite operator_minus_eq_int_returns by apply Fp || apply Fm.
    rewrite operator_minus_eq_returns; cbn [numerator_ denominator_];
      rewrite ?Z.mul_1_r, ?(Z.mul_comm d c); trivial; try lia.
    f_equal. symmetry.
    exact (reduce_canonical_id (Rational (n - c * d) d) (canonical_shift_sub n d c C)).
Qed.

Lemma integer_addition_agrees_witness :
  canonical (Rational 1 3) /\
  operator_plus_eq_int int_t 2 (Rational 1 3)
  = operator_plus_eq int_t (Rational 2 1) (Rational 1 3) /\
  operator_minus_eq_int int_t 2 (Rational 1 3)
  = operator_minus_eq int_t (Rational 2 1) (Rational 1 3).
Proof.
  assert (F : forall z, representable int_t z = true ->
                        representable int_t (Z.abs z) = true -> fits int_t z)
    by (intros z R A; exact (conj R A)).
  refine (conj eq_refl _).
  pose proof (integer_addition_agrees int_t (Rational 1 3) 2 eq_refl
                (F 1 eq_refl eq_refl) eq_refl (F 6 eq_refl eq_refl)) as [Hp Hm].
  exact (conj (Hp (F 7 eq_refl eq_refl)) (Hm (F (-5) eq_refl eq_refl))).
Defined.

Section StepRoundTrips.
Variable T : integral.

(** Subtracting what was added gives the first value back, also when
    the sum has wrapped around. *)
Lemma arith_add_sub n p v :
  representable T n = true -> arith T (n + p) = Some v -> arith T (v - p) = Some n.
Proof.
  intros R A. unfold arith in *. destruct (is_signed T) eqn:Sg.
  - destruct (representable T (n + p)); [|discriminate].
    injection A as <-. replace (n + p - p) with n by ring. now rewrite R.
  - injection A as <-. f_equal. pose proof (modulus_pos T).
    rewrite Zminus_mod_idemp_l. replace (n + p - p) with n by ring.
    apply Z.mod_small. now apply unsigned_range.
Qed.

Lemma arith_sub_add n p v :
  representable T n = true -> arith T (n - p) = Some v -> arith T (v + p) = Some n.
Proof.
  intros R A. unfold arith in *. destruct (is_signed T) eqn:Sg.
  - destruct (representable T (n - p)); [|discriminate].
    injection A as <-. replace (n - p + p) with n by ring. now rewrite R.
  - injection A as <-. f_equal. pose proof (modulus_pos T).
    rewrite Zplus_mod_idemp_l. replace (n - p + p) with n by ring.
    apply Z.mod_small. now apply unsigned_range.
Qed.

End StepRoundTrips.

(** X14.  Subtracting an integer that has just been added, and adding one
    that has just been subtracted, restores the object: whenever the
    first step returns, so does the second, with the state from before
    the first, also when an unsigned numerator has wrapped around. *)
Theorem add_subtract_integer_restores (T : integral) (s : rational) (c : Z) :
  well_typed T s ->
  (forall s1, operator_plus_eq_int T c s = Returns tt s1 ->
              operator_minus_eq_int T c s1 = Returns tt s) /\
  (forall s1, operator_minus_eq_int T c s = Returns tt s1 ->
              operator_plus_eq_int T c s1 = Returns tt s).
Proof.
  destruct s as [n d]. intros [Rn Rd]. simpl in Rn, Rd. split; intros s1 H.
  - unfold operator_plus_eq_int in H. run in H. peel H. injection H as <-.
    unfold operator_minus_eq_int. run. rewrite E. cbn [numerator_ denominator_].
    unfold int_sub. unfold int_add in E0.
    now rewrite (arith_add_sub T n z z0 Rn E0).
  - unfold operator_minus_eq_int in H. run in H. peel H. injection H as <-.
    unfold operator_plus_eq_int. run. rewrite E. cbn [numerator_ denominator_].
    unfold int_add. unfold int_sub in E0.
    now rewrite (arith_sub_add T n z z0 Rn E0).
Qed.

Lemma add_subtract_integer_restores_witness :
  well_typed unsigned_int (Rational 1 3) /\
  operator_plus_eq_int unsigned_int 1431655766 (Rational 1 3) = Returns tt (Rational 3 3) /\
  operator_minus_eq_int unsigned_int 1431655766 (Rational 3 3) = Returns tt (Rational 1 3).
Proof.
  assert (W : well_typed unsigned_int (Rational 1 3)) by (split; reflexivity).
  assert (P : operator_plus_eq_int unsigned_int 1431655766 (Rational 1 3)
              = Returns tt (Rational 3 3)) by reflexivity.
  exact (conj W (conj P
    (proj1 (add_subtract_integer_restores unsigned_int (Rational 1 3) 1431655766 W)
       (Rational 3 3) P))).
Defined.

(** X15.  A decrement undoes an increment and an increment undoes a
    decrement: whenever the first returns, the second returns with the
    object as it was. *)
Theorem increment_decrement_restores (T : integral) (s : rational) :
  well_typed T s ->
  (forall s1, operator_pre_inc T s = Returns tt s1 ->
              operator_pre_dec T s1 = Returns tt s) /\
  (forall s1, operator_pre_dec T s = Returns tt s1 ->
              operator_pre_inc T s1 = Returns tt s).
Proof.
  destruct s as [n d]. intros [Rn Rd]. simpl in Rn, Rd. split; intros s1 H.
  - unfold operator_pre_inc in H. run in H. peel H. injection H as <-.
    unfold operator_pre_dec. run. unfold int_sub. unfold int_add in E.
    now rewrite (arith_add_sub T n d z Rn E).
  - unfold operator_pre_dec in H. run in H. peel H. injection H as <-.
    unfold operator_pre_inc. run. unfold int_add. unfold int_sub in E.
    now rewrite (arith_sub_add T n d z Rn E).
Qed.

Lemma increment_decrement_restores_witness :
  well_typed unsigned_int (Rational 4294967293 3) /\
  operator_pre_inc unsigned_int (Rational 4294967293 3) = Returns tt (Rational 0 3) /\
  operator_pre_dec unsigned_int (Rational 0 3) = Returns tt (Rational 4294967293 3).
Proof.
  assert (W : well_typed unsigned_int (Rational 4294967293 3)) by (split; reflexivity).
  assert (P : operator_pre_inc unsigned_int (Rational 4294967293 3)
              = Returns tt (Rational 0 3)) by reflexivity.
  exact (conj W (conj P
    (proj1 (increment_decrement_restores unsigned_int (Rational 4294967293 3) W)
       (Rational 0 3) P))).
Defined.

(** X16.  Comparing with an integer [c] is comparing with the rational
    [c/1]: [==] and [<=>] give the same answers in both forms on every
    object of the base type. *)
Theorem integer_comparison_agrees (T : integral) (this : rational) (c : Z) :
  well_typed T this ->
  operator_eq_int this c = operator_eq this (Rational c 1) /\
  operator_spaceship_int T this c = operator_spaceship T this (Rational c 1).
Proof.
  destruct this as [n d]. intros [Rn Rd]. simpl in Rn, Rd.
  split; [reflexivity|].
  unfold operator_spaceship_int, operator_spaceship, operator_eq_int,
    operator_eq, rational_eqb, int_mul. cbn [numerator_ denominator_].
  destruct ((n =? c) && (d =? 1)); trivial.
  now rewrite Z.mul_1_r, (arith_exact T _ Rn).
Qed.

Lemma integer_comparison_agrees_witness :
  well_typed int_t (Rational 3 2) /\
  operator_eq_int (Rational 3 2) 1 = operator_eq (Rational 3 2) (Rational 1 1) /\
  operator_spaceship_int int_t (Rational 3 2) 1
  = operator_spaceship int_t (Rational 3 2) (Rational 1 1).
Proof.
  assert (W : well_typed int_t (Rational 3 2)) by (split; reflexivity).
  exact (conj W (integer_comparison_agrees int_t (Rational 3 2) 1 W)).
Defined.

(** X17.  On canonical rationals the defaulted [==], which compares the
    fields, holds exactly when the two values are equal. *)
Theorem equality_decides_value (a b : rational) :
  canonical a -> canonical b ->
  (operator_eq a b = true <->
   numerator_ a * denominator_ b = numerator_ b * denominator_ a).
Proof.
  intros Ca Cb. unfold operator_eq. rewrite rational_eqb_eq. split.
  - intros ->. ring.
  - now apply canonical_unique.
Qed.

Lemma equality_decides_value_witness :
  operator_eq (Rational 1 2) (Rational 2 3) = true <-> 1 * 3 = 2 * 2.
Proof.
  apply (equality_decides_value (Rational 1 2) (Rational 2 3)); reflexivity.
Defined.

(** ** Errors *)

(** X18.  The mutators other than the assignment from floating point
    throw in two cases only, and leave the object as it was: a division
    by a rational with a zero numerator or by the integer zero throws
    "Division by zero.", and a zero given to the denominator setter or as
    the denominator to [assign] throws "Denominator can not be zero.". *)
Theorem mutators_throw_on_zero_only (T : integral) (op : mutation) (s s' : rational) (what : string) :
  (forall F value, op <> Assign_float F value) ->
  apply T op s = Throws what s' ->
  s' = s /\
  ((what = "Division by zero." /\
    ((exists that, op = Div_eq that /\ numerator_ that = 0) \/ op = Div_eq_int 0)) \/
   (what = "Denominator can not be zero." /\
    (op = Set_denominator 0 \/ exists n, op = Assign n 0))).
Proof.
  intros NF H. split; [now apply (throw_leaves_state T op s what s')|].
  destruct s as [a b].
  destruct op; simpl in H;
    try solve [ exfalso; eapply NF; reflexivity
              | discriminate H ];
    [ unfold operator_plus_eq in H
    | unfold operator_minus_eq in H
    | unfold operator_times_eq in H
    | unfold operator_div_eq in H
    | unfold operator_plus_eq_int in H
    | unfold operator_minus_eq_int in H
    | unfold operator_times_eq_int in H
    | unfold operator_div_eq_int in H
    | unfold operator_pre_inc in H
    | unfold operator_pre_dec in H
    | unfold operator_post_inc, operator_pre_inc in H
    | unfold operator_post_dec, operator_pre_dec in H
    | unfold numerator_set in H
    | unfold denominator_set in H
    | unfold assign in H ];
    try match type of H with
        | context [if ?x =? 0 then throw _ else _] =>
            destruct (Z.eqb_spec x 0) as [Zero|_];
            [ inversion H; subst; clear H | ]
        end;
    try solve [ run in H; peel H;
                solve [ discriminate H
                      | exfalso; eapply canonize_no_throw; exact H ] ].
  - left. split; trivial. left. now exists that.
  - left. split; trivial. now right.
  - right. split; trivial. now left.
  - right. split; trivial. right. now exists n.
Qed.

Lemma mutators_throw_on_zero_only_witness :
  apply int_t (Div_eq_int 0) (Rational 1 2) = Throws "Division by zero." (Rational 1 2) /\
  Rational 1 2 = Rational 1 2 /\
  (("Division by zero." = "Division by zero." /\
    ((exists that, Div_eq_int 0 = Div_eq that /\ numerator_ that = 0) \/
     Div_eq_int 0 = Div_eq_int 0)) \/
   ("Division by zero." = "Denominator can not be zero." /\
    (Div_eq_int 0 = Set_denominator 0 \/ exists n, Div_eq_int 0 = Assign n 0))).
Proof.
  refine (conj eq_refl _).
  apply (mutators_throw_on_zero_only int_t (Div_eq_int 0) (Rational 1 2));
    [discriminate | reflexivity].
Defined.

Section FloatErrorFacts.
Variable T : integral.

Lemma assign_throw_what n d s what s' :
  assign T n d s = Throws what s' -> what = "Denominator can not be zero.".
Proof.
  unfold assign. destruct (Z.eqb_spec d 0) as [E|NE].
  - intros H. now inversion H.
  - run. intros H. exfalso. eapply canonize_no_throw. exact H.
Qed.

(** A finite value is never rejected as infinite. *)
Lemma assign_float_finite_message F value s what s' :
  isfinite value = true ->
  assign_float T F value s = Throws what s' ->
  what <> "Value can not be infinite.".
Proof.
  intros Fin. unfold assign_float. rewrite Fin. simpl.
  destruct (std_frexp F value) as [fraction exponent].
  run. intros H. peel H.
  assert (A0 : forall n d st, assign T n d st = Throws what s' ->
                              what <> "Value can not be infinite.").
  { intros n d st A. apply assign_throw_what in A. subst what. discriminate. }
  destruct (exponent - digits F >? 0).
  - peel H. eapply A0; eauto.
  - destruct (exponent - digits F <? 0); [|eapply A0; eauto].
    destruct (- (exponent - digits F) >=? max_exponent F - 1).
    + peel H.
      match type of H with
      | context [if ?c then _ else _] => destruct c
      end; [|eapply A0; eauto].
      inversion H; subst. discriminate.
    + peel H. eapply A0; eauto.
Qed.

End FloatErrorFacts.

(** X19.  The conversion from floating point rejects exactly the values
    that are not finite as infinite: the constructor fails with "Value
    can not be infinite." if and only if the value is an infinity or a
    NaN, and [assign] then leaves the object as it was. *)
Theorem non_finite_rejected (T : integral) (F : floating_point) (value : spec_float) :
  (rational_cast_from_floating T F value = DomainError "Value can not be infinite."
   <-> isfinite value = false) /\
  (forall s, isfinite value = false ->
             assign_float T F value s = Throws "Value can not be infinite." s).
Proof.
  assert (R : forall s, isfinite value = false ->
                        assign_float T F value s
                        = Throws "Value can not be infinite." s).
  { intros s N. unfold assign_float. now rewrite N. }
  split; [|exact R]. split.
  - intros H. destruct (isfinite value) eqn:Fin; trivial. exfalso.
    unfold rational_cast_from_floating, rational_ctor_float, complete in H.
    destruct (assign_float T F value (Rational 0 0)) as [u s'|what s'|] eqn:A;
      try discriminate.
    injection H as ->.
    now apply (assign_float_finite_message T F value _ _ _ Fin A).
  - intros N. unfold rational_cast_from_floating, rational_ctor_float, complete.
    now rewrite R.
Qed.

Lemma non_finite_rejected_witness :
  rational_cast_from_floating int_t float_t (S754_infinity true)
  = DomainError "Value can not be infinite." /\
  assign_float int_t float_t S754_nan (Rational 1 2)
  = Throws "Value can not be infinite." (Rational 1 2).
Proof.
  split.
  - apply (proj1 (non_finite_rejected int_t float_t (S754_infinity true))).
    reflexivity.
  - apply (proj2 (non_finite_rejected int_t float_t S754_nan)). reflexivity.
Defined.

(** ** Setters *)

(** X20.  The numerator setter on a canonical rational returns, and
    leaves the canonical form of the new numerator over the old
    denominator. *)
Theorem numerator_set_value (T : integral) (s : rational) (v : Z) :
  canonical s -> representable T (denominator_ s) = true -> fits T v ->
  exists s',
    numerator_set T v s = Returns tt s' /\
    canonical s' /\
    numerator_ s' * denominator_ s = v * denominator_ s'.
Proof.
  destruct s as [n d]. cbn [numerator_ denominator_]. intros C Rd Fv.
  pose proof (proj1 (canonical_iff _) C) as [P _]. simpl in P.
  assert (Fd : fits T d) by (apply fits_nonneg; trivial; lia).
  exists (reduce v d). repeat split.
  - unfold numerator_set. run.
    apply (canonize_reduce T (Rational v d)); cbn [numerator_ denominator_];
      trivial. right. lia.
  - apply reduce_canonical. lia.
  - apply reduce_value. lia.
Qed.

Lemma numerator_set_value_witness :
  canonical (Rational 1 4) /\
  exists s',
    numerator_set int_t 6 (Rational 1 4) = Returns tt s' /\
    canonical s' /\
    numerator_ s' * 4 = 6 * denominator_ s'.
Proof.
  refine (conj eq_refl _).
  apply (numerator_set_value int_t (Rational 1 4) 6);
    solve [reflexivity | split; reflexivity].
Defined.

(** X21.  The denominator setter, given a nonzero value, returns and
    leaves the canonical form of the old numerator over the new
    denominator, whatever the old denominator was. *)
Theorem denominator_set_value (T : integral) (s : rational) (v : Z) :
  v <> 0 -> fits T (numerator_ s) -> fits T v ->
  exists s',
    denominator_set T v s = Returns tt s' /\
    canonical s' /\
    numerator_ s' * v = numerator_ s * denominator_ s'.
Proof.
  destruct s as [n d]. cbn [numerator_ denominator_]. intros NZ Fn Fv.
  exists (reduce n v). repeat split.
  - unfold denominator_set.
    destruct (Z.eqb_spec v 0) as [|_]; [contradiction|]. run.
    apply (canonize_reduce T (Rational n v)); cbn [numerator_ denominator_];
      trivial. now right.
  - now apply reduce_canonical.
  - now apply reduce_value.
Qed.

Lemma denominator_set_value_witness :
  exists s',
    denominator_set int_t (-6) (Rational 3 4) = Returns tt s' /\
    canonical s' /\
    numerator_ s' * -6 = numerator_ (Rational 3 4) * denominator_ s'.
Proof.
  apply (denominator_set_value int_t (Rational 3 4) (-6));
    solve [discriminate | split; reflexivity].
Defined.

(** X22.  Assigning an integer is constructing from it: [r = c] leaves
    the object the one-argument constructor builds from [c], namely
    [c/1], when the magnitude of [c] is within the range of the base
    type (a type that holds the value one). *)
Theorem assign_integer_constructs (T : integral) (s : rational) (c : Z) :
  representable T 1 = true -> fits T c ->
  complete (operator_assign_int c) s = rational_ctor T c 1 /\
  rational_ctor T c 1 = Ok (Rational c 1).
Proof.
  intros R1 Fc.
  assert (F1 : fits T 1) by (apply fits_nonneg; trivial; lia).
  assert (R : rational_ctor T c 1 = Ok (Rational c 1))
    by (rewrite rational_ctor_reduce, reduce_one; trivial; lia).
  split; [|exact R]. now rewrite R.
Qed.

Lemma assign_integer_constructs_witness :
  complete (operator_assign_int (-7)) (Rational 1 2) = rational_ctor int_t (-7) 1 /\
  rational_ctor int_t (-7) 1 = Ok (Rational (-7) 1).
Proof.
  apply (assign_integer_constructs int_t (Rational 1 2) (-7));
    solve [reflexivity | split; reflexivity].
Defined.

(** ** Conversions to and from integers *)

Section ConversionFacts.
Variable T : integral.

Lemma modulus_double : modulus T = 2 * 2 ^ (Zpos (bits T) - 1).
Proof.
  unfold modulus. rewrite <- Z.pow_succ_r by lia. f_equal. lia.
Qed.

(** The conversion keeps a value the type can represent. *)
Lemma integral_cast_id z : representable T z = true -> integral_cast T z = z.
Proof.
  intros R. unfold integral_cast. destruct (is_signed T) eqn:Sg.
  - apply representable_iff in R. revert R.
    unfold min_value, max_value. rewrite Sg. intros R.
    rewrite Z.mod_small; [lia|]. rewrite modulus_double. lia.
  - apply Z.mod_small. now apply unsigned_range.
Qed.

Lemma integral_cast_representable z : representable T (integral_cast T z) = true.
Proof.
  pose proof (modulus_pos T) as M. unfold integral_cast.
  destruct (is_signed T) eqn:Sg.
  - apply representable_iff. unfold min_value, max_value. rewrite Sg.
    pose proof (Z.mod_pos_bound (z + 2 ^ (Zpos (bits T) - 1)) (modulus T) M) as B.
    pose proof modulus_double as D. lia.
  - apply unsigned_range; trivial. now apply Z.mod_pos_bound.
Qed.

(** A quotient is no larger than the dividend and has its sign. *)
Lemma quot_representable n d :
  representable T n = true -> 0 < d -> representable T (Z.quot n d) = true.
Proof.
  intros R P. apply (representable_between T n); trivial.
  - destruct (Z.le_gt_cases 0 n) as [N|N].
    + pose proof (Z.quot_pos n d N ltac:(lia)).
      pose proof (Z.mul_quot_le n d N ltac:(lia)). nia.
    + replace n with (- - n) by lia. rewrite Z.quot_opp_l by lia.
      pose proof (Z.quot_pos (- n) d ltac:(lia) ltac:(lia)).
      pose proof (Z.mul_quot_le (- n) d ltac:(lia) ltac:(lia)). nia.
  - destruct (Z.le_gt_cases 0 n) as [N|N].
    + pose proof (Z.quot_pos n d N ltac:(lia)). nia.
    + replace n with (- - n) at 2 by lia. rewrite Z.quot_opp_l by lia.
      pose proof (Z.quot_pos (- n) d ltac:(lia) ltac:(lia)). nia.
Qed.

End ConversionFacts.

(** X23.  Evaluating a rational with a positive denominator in its own
    base type is defined and gives the quotient of the numerator by the
    denominator truncated towards zero. *)
Theorem evaluate_integral_truncates (T : integral) (r : rational) :
  well_typed T r -> 0 < denominator_ r ->
  evaluate_integral T r = Some (Z.quot (numerator_ r) (denominator_ r)) /\
  rational_cast_to_integral T r = evaluate_integral T r.
Proof.
  destruct r as [n d]. intros [Rn Rd] P. simpl in Rn, Rd, P.
  split; [|reflexivity].
  unfold evaluate_integral, int_div. cbn [numerator_ denominator_].
  rewrite !integral_cast_id by trivial.
  destruct (Z.eqb_spec d 0) as [|_]; [lia|].
  apply arith_exact. now apply quot_representable.
Qed.

Lemma evaluate_integral_truncates_witness :
  well_typed int_t (Rational (-7) 2) /\
  evaluate_integral int_t (Rational (-7) 2) = Some (Z.quot (-7) 2) /\
  rational_cast_to_integral int_t (Rational (-7) 2)
  = evaluate_integral int_t (Rational (-7) 2).
Proof.
  assert (W : well_typed int_t (Rational (-7) 2)) by (split; reflexivity).
  refine (conj W _).
  apply (evaluate_integral_truncates int_t (Rational (-7) 2) W). reflexivity.
Defined.

(** X24.  An integer survives the round trip through a rational: the
    cast to a rational gives [v/1], the cast back gives [v], and the
    uniform accessors read from the rational what they read from the
    bare integer, for an integer whose magnitude is within the range of
    the base type (a type that holds the value one). *)
Theorem integer_round_trip (T : integral) (v : Z) :
  representable T 1 = true -> fits T v ->
  exists r,
    rational_cast_from_integral T v = Ok r /\
    rational_cast_to_integral T r = Some v /\
    numerator_of_rational r = numerator_of_arithmetic v /\
    denominator_of_rational r = denominator_of_arithmetic v.
Proof.
  intros R1 Fv. exists (Rational v 1).
  assert (F1 : fits T 1) by (apply fits_nonneg; trivial; lia).
  repeat split.
  - unfold rational_cast_from_integral.
    rewrite integral_cast_id by apply Fv.
    rewrite rational_ctor_reduce, reduce_one; trivial; lia.
  - unfold rational_cast_to_integral, evaluate_integral, int_div.
    cbn [numerator_ denominator_].
    rewrite (integral_cast_id T 1 R1), (integral_cast_id T v (proj1 Fv)).
    cbn [Z.eqb]. rewrite Z.quot_1_r. apply arith_exact, Fv.
Qed.

Lemma integer_round_trip_witness :
  exists r,
    rational_cast_from_integral int_t (-5) = Ok r /\
    rational_cast_to_integral int_t r = Some (-5) /\
    numerator_of_rational r = numerator_of_arithmetic (-5) /\
    denominator_of_rational r = denominator_of_arithmetic (-5).
Proof.
  apply (integer_round_trip int_t (-5)); solve [reflexivity | split; reflexivity].
Defined.

(** X25.  An integer literal denotes the rational of its value over one:
    for an unsigned base type the value reduced modulo [2 ^ bits], as
    the conversion from [unsigned long long] wraps around, and for every
    base type the value itself when the type can hold it (the type
    holding the value one). *)
Theorem literal_value (T : integral) (v : Z) :
  representable T 1 = true ->
  (is_signed T = false ->
   operator_literal T v = Ok (Rational (v mod modulus T) 1)) /\
  (0 <= v <= max_value T ->
   operator_literal T v = Ok (Rational v 1)).
Proof.
  intros R1.
  assert (F1 : fits T 1) by (apply fits_nonneg; trivial; lia).
  pose proof (modulus_pos T) as M.
  unfold operator_literal. split.
  - intros U.
    assert (E : integral_cast T v = v mod modulus T)
      by (unfold integral_cast; now rewrite U).
    rewrite E, rational_ctor_reduce, reduce_one; trivial; try lia.
    apply well_typed_fits; trivial. rewrite <- E.
    apply integral_cast_representable.
  - intros B.
    assert (R : representable T v = true).
    { apply representable_iff. pose proof (min_value_nonpos T). lia. }
    rewrite integral_cast_id, rational_ctor_reduce, reduce_one; trivial; try lia.
    now apply fits_nonneg.
Qed.

Lemma literal_value_witness :
  operator_literal unsigned_int 4294967297 = Ok (Rational (4294967297 mod modulus unsigned_int) 1) /\
  operator_literal int_t 42 = Ok (Rational 42 1).
Proof.
  split.
  - apply (literal_value unsigned_int 4294967297); reflexivity.
  - apply (literal_value int_t 42); [reflexivity|].
    split; [lia|]. unfold max_value. simpl. lia.
Defined.

(** X26.  On a signed base type, [abs] of a canonical rational is the
    magnitude of the numerator over the same denominator. *)
Theorem abs_value (T : integral) (value : rational) :
  is_signed T = true ->
  canonical value ->
  fits T (numerator_ value) -> representable T (denominator_ value) = true ->
  abs T value = Ok (Rational (Z.abs (numerator_ value)) (denominator_ value)).
Proof.
  destruct value as [n d]. cbn [numerator_ denominator_]. intros _ C Fn Rd.
  pose proof (proj1 (canonical_iff _) C) as [P G]. simpl in P, G.
  assert (Fd : fits T d) by (apply fits_nonneg; trivial; lia).
  assert (C' : canonical (Rational (Z.abs n) d))
    by (apply canonical_iff; simpl; now rewrite Z.gcd_abs_l).
  unfold abs, std_abs, numerator, denominator. cbn [numerator_ denominator_].
  rewrite (proj2 Fn), rational_ctor_reduce; trivial; try lia.
  - f_equal. exact (reduce_canonical_id (Rational (Z.abs n) d) C').
  - now apply fits_abs.
Qed.

Lemma abs_value_witness :
  canonical (Rational (-3) 2) /\
  abs int_t (Rational (-3) 2) = Ok (Rational (Z.abs (-3)) 2).
Proof.
  refine (conj eq_refl _).
  apply (abs_value int_t (Rational (-3) 2));
    solve [reflexivity | split; reflexivity].
Defined.

(** ** Aliasing and the free operators *)

(** X27.  Dividing an object by itself in place does not leave one: the
    denominator is multiplied by the numerator the first statement has
    already updated, and a canonical [n/d] with [n] nonzero is left as
    [1/d]; dividing it by a copy of itself leaves 1/1 (when the products
    [n*d] and [d*(n*d)] are within the range of the base type, in
    magnitude too). *)
Theorem divide_by_itself (T : integral) (s : rational) :
  canonical s -> numerator_ s <> 0 ->
  fits T (numerator_ s * denominator_ s) ->
  fits T (denominator_ s * (numerator_ s * denominator_ s)) ->
  complete (operator_div_eq_self T) s = Ok (Rational 1 (denominator_ s)) /\
  complete (operator_div_eq T s) s = Ok (Rational 1 1).
Proof.
  destruct s as [n d]. cbn [numerator_ denominator_]. intros C NZ F1 F2.
  pose proof (proj1 (canonical_iff _) C) as [P G]. simpl in P, G.
  split.
  - unfold operator_div_eq_self. run.
    destruct (Z.eqb_spec n 0) as [|_]; [contradiction|].
    run. unfold int_mul.
    rewrite (arith_exact T _ (proj1 F1)). cbn [numerator_ denominator_].
    rewrite (arith_exact T _ (proj1 F2)). cbn [numerator_ denominator_].
    rewrite (canonize_reduce T (Rational (n * d) (d * (n * d))));
      cbn [numerator_ denominator_]; trivial; [|left; nia].
    f_equal. apply reduce_unique.
    + nia.
    + apply canonical_iff. cbn [numerator_ denominator_].
      split; [exact P|apply Z.gcd_1_l].
    + cbn [numerator_ denominator_]. ring.
  - unfold complete.
    rewrite operator_div_eq_returns; cbn [numerator_ denominator_];
      trivial; try lia.
    + f_equal. apply reduce_unique; [nia|reflexivity|].
      cbn [numerator_ denominator_]. ring.
    + now rewrite (Z.mul_comm d n).
Qed.

Lemma divide_by_itself_witness :
  canonical (Rational (-3) 2) /\
  complete (operator_div_eq_self int_t) (Rational (-3) 2) = Ok (Rational 1 2) /\
  complete (operator_div_eq int_t (Rational (-3) 2)) (Rational (-3) 2) = Ok (Rational 1 1).
Proof.
  refine (conj eq_refl _).
  apply (divide_by_itself int_t (Rational (-3) 2));
    solve [reflexivity | discriminate | split; reflexivity].
Defined.

(** X28.  An integer minus a rational: [c - a/b], which the header
    computes as the negation of [a/b - c], is [(c*b - a)/b] for a
    canonical [a/b], when the product, the difference and its negation
    are within the range of the base type. *)
Theorem integer_minus_rational (T : integral) (c : Z) (rhs : rational) :
  canonical rhs ->
  representable T (denominator_ rhs) = true ->
  representable T (c * denominator_ rhs) = true ->
  fits T (numerator_ rhs - c * denominator_ rhs) ->
  representable T (c * denominator_ rhs - numerator_ rhs) = true ->
  operator_sub_ir T c rhs
  = Ok (Rational (c * denominator_ rhs - numerator_ rhs) (denominator_ rhs)).
Proof.
  destruct rhs as [a b]. cbn [numerator_ denominator_]. intros C Rb Rp Fd Rn.
  pose proof (proj1 (canonical_iff _) C) as [P G]. simpl in P, G.
  assert (Fb : fits T b) by (apply fits_nonneg; trivial; lia).
  pose proof (canonical_shift_sub a b c C) as C1.
  assert (E : - (a - c * b) = c * b - a) by ring.
  assert (C2 : canonical (Rational (c * b - a) b)).
  { apply canonical_iff. apply canonical_iff in C1. simpl in *.
    now rewrite <- E, Z.gcd_opp_l. }
  unfold operator_sub_ir, complete.
  rewrite operator_minus_eq_int_returns by (trivial; apply Fd).
  cbn [outcome_bind]. unfold operator_minus, int_neg.
  cbn [numerator_ denominator_]. rewrite E, (arith_exact T _ Rn).
  rewrite rational_ctor_reduce; trivial; try lia.
  - f_equal. exact (reduce_canonical_id (Rational (c * b - a) b) C2).
  - rewrite <- E. apply fits_opp; trivial. now rewrite E.
Qed.

Lemma integer_minus_rational_witness :
  canonical (Rational 1 3) /\
  operator_sub_ir int_t 2 (Rational 1 3) = Ok (Rational (2 * 3 - 1) 3).
Proof.
  refine (conj eq_refl _).
  apply (integer_minus_rational int_t 2 (Rational 1 3));
    solve [reflexivity | split; reflexivity].
Defined.

(** X29.  An integer divided by a rational: [c / (a/b)] fails with
    "Division by zero." when [a] is zero, and is otherwise the canonical
    form of [c*b / a], when [c], [a] and the product are within the
    range of the base type (a type that holds the value one). *)
Theorem integer_over_rational (T : integral) (c : Z) (rhs : rational) :
  representable T 1 = true -> fits T c ->
  (numerator_ rhs = 0 ->
   operator_div_ir T c rhs = DomainError "Division by zero.") /\
  (numerator_ rhs <> 0 ->
   fits T (c * denominator_ rhs) -> fits T (numerator_ rhs) ->
   operator_div_ir T c rhs = Ok (reduce (c * denominator_ rhs) (numerator_ rhs))).
Proof.
  destruct rhs as [a b]. cbn [numerator_ denominator_]. intros R1 Fc.
  assert (F1 : fits T 1) by (apply fits_nonneg; trivial; lia).
  unfold operator_div_ir.
  rewrite rational_ctor_reduce, reduce_one by (trivial; lia).
  cbn [outcome_bind]. split.
  - intros ->. reflexivity.
  - intros NZ Fp Fa. unfold complete.
    rewrite operator_div_eq_returns; cbn [numerator_ denominator_];
      rewrite ?Z.mul_1_l; trivial; lia.
Qed.

Lemma integer_over_rational_witness :
  operator_div_ir int_t 2 (Rational 0 1) = DomainError "Division by zero." /\
  operator_div_ir int_t 2 (Rational (-4) 3) = Ok (reduce (2 * 3) (-4)).
Proof.
  split.
  - apply (integer_over_rational int_t 2 (Rational 0 1));
      solve [reflexivity | split; reflexivity].
  - apply (integer_over_rational int_t 2 (Rational (-4) 3));
      solve [reflexivity | discriminate | split; reflexivity].
Defined.

(** X30.  Dividing a canonical rational by a nonzero integer and
    multiplying the quotient by the same integer gives the rational
    back, as long as the products of its fields with the integer stay
    within the range of the base type. *)
Theorem divide_then_multiply_integer (T : integral) (a : rational) (c : Z) :
  well_typed T a -> canonical a -> c <> 0 ->
  fits T (numerator_ a * c) -> fits T (denominator_ a * c) ->
  exists quotient,
    complete (operator_div_eq_int T c) a = Ok quotient /\
    complete (operator_times_eq_int T c) quotient = Ok a.
Proof.
  destruct a as [n d]. intros [Rn Rd] C NZ Fn Fd. simpl in Rn, Rd.
  cbn [numerator_ denominator_] in Fn, Fd.
  pose proof (proj1 (canonical_iff _) C) as [P G]. simpl in P, G.
  assert (Fn0 : fits T n).
  { split; trivial. apply (representable_between T (Z.abs (n * c))).
    - apply Fn.
    - rewrite Z.abs_mul. nia.
    - nia. }
  assert (D : d * c <> 0) by nia.
  pose proof (reduce_shape n (d * c) (or_intror D)) as (_ & Pq & Ln & Ld).
  destruct (reduce_fits T n (d * c) Fn0 Fd (or_intror D)) as [Fqn Fqd].
  pose proof (reduce_value n (d * c) D) as V.
  pose proof (proj1 (canonical_iff _) (reduce_canonical n (d * c) D)) as [Pd _].
  remember (reduce n (d * c)) as q eqn:Eq. destruct q as [qn qd].
  cbn [numerator_ denominator_] in *.
  exists (Rational qn qd). split.
  - unfold complete, operator_div_eq_int.
    destruct (Z.eqb_spec c 0) as [|_]; [contradiction|].
    run. unfold int_mul.
    rewrite (arith_exact T _ (proj1 Fd)). cbn [numerator_ denominator_].
    rewrite (canonize_reduce T (Rational n (d * c)));
      cbn [numerator_ denominator_]; trivial; [|now right].
    now rewrite <- Eq.
  - assert (Fp : fits T (qn * c)).
    { apply (fits_smaller T (n * c)); trivial.
      - rewrite !Z.abs_mul. nia.
      - intros U.
        pose proof (proj1 (unsigned_range T _ U) (proj1 Fd)).
        pose proof (proj1 (unsigned_range T _ U) Rn).
        assert (0 <= c) by nia.
        assert (0 <= qn) by nia. nia. }
    unfold complete, operator_times_eq_int. run. unfold int_mul.
    rewrite (arith_exact T _ (proj1 Fp)). cbn [numerator_ denominator_].
    rewrite (canonize_reduce T (Rational (qn * c) qd));
      cbn [numerator_ denominator_]; trivial; [|right; lia].
    f_equal. apply reduce_unique; trivial; [lia|].
    cbn [numerator_ denominator_]. nia.
Qed.

Lemma divide_then_multiply_integer_witness :
  well_typed int_t (Rational 4 3) /\
  canonical (Rational 4 3) /\
  exists quotient,
    complete (operator_div_eq_int int_t (-6)) (Rational 4 3) = Ok quotient /\
    complete (operator_times_eq_int int_t (-6)) quotient = Ok (Rational 4 3).
Proof.
  assert (W : well_typed int_t (Rational 4 3)) by (split; reflexivity).
  refine (conj W (conj eq_refl _)).
  apply (divide_then_multiply_integer int_t (Rational 4 3) (-6) W);
    solve [reflexivity | discriminate | split; reflexivity].
Defined.
